(** * FRED_API: the TTL request cache and the depth-bounded category traversal

    A shallow embedding of [CacheTool.py] (class [Cacher]) and of the
    request and traversal methods of [FRED_API.py] (class [Application]),
    followed by the properties of the specification that were checked
    against them.

    Conventions of the embedding:
    - a Python value that came out of [json.loads] (or is about to go into
      the cache) is a [pyval]; JSON numbers are integers (floats are outside
      the model); a Python [dict] with string keys is a [gmap string pyval];
    - text is a Rocq [string]; case folding and lengths are those of ASCII
      text;
    - a method that mutates [self] is a function from the state before to a
      result and the state after; a raised exception is the result
      [Raise e], and the state reached when it was raised is kept, as in
      Python;
    - the Python library functions and the outside world (clock, network)
      that the code calls are the fields of a [Runtime] record, and every
      definition of the code takes the runtime as a parameter;
    - the counters and the counts of the traversal are integers; where
      Python would carry the boolean [True] as a count, the model carries
      the integer 1 that it stands for in every sum and comparison;
    - the logging calls are left out, but for the progress line of
      [process_category], which is kept in a trace next to the keys handed
      to the cache and the URLs sent to the server. The trace is only
      written, never read, by the code. *)

From stdpp Require Import gmap strings list fin_maps.
From Stdlib Require Import ZArith Ascii DecimalString.

#[local] Set Warnings "-register-all".
#[local] Open Scope string_scope.
#[local] Open Scope Z_scope.
#[local] Open Scope list_scope.

(** ** Python values *)

Inductive pyval : Type :=
  | PNone
  | PBool (b : bool)
  | PInt (n : Z)
  | PStr (s : string)
  | PList (l : list pyval)
  | PDict (d : gmap string pyval).

(** The exceptions that the modelled code can meet. [SystemExit] is what
    [exit(code)] raises. *)
Inductive exn : Type :=
  | AttributeError
  | TypeError
  | KeyError
  | ValueError
  | JSONDecodeError
  | DuplicatedNodeIdError
  | MultipleRootError
  | NodeIDAbsentError
  | SystemExit (code : Z).

Inductive result (A : Type) : Type :=
  | Ok (a : A)
  | Raise (e : exn).
Arguments Ok {A} a.
Arguments Raise {A} e.

(** [bool(v)]: the truth value Python gives to [v] in [if v] and [not v]. *)
Definition truthy (v : pyval) : bool :=
  match v with
  | PNone => false
  | PBool b => b
  | PInt n => negb (n =? 0)
  | PStr s => negb (String.eqb s "")
  | PList l => negb (Nat.eqb (length l) 0)
  | PDict d => negb (Nat.eqb (size d) 0)
  end.

(** [v.get(key)]: only a dict has the method. *)
Definition py_get (v : pyval) (key : string) : result pyval :=
  match v with
  | PDict d => Ok (default PNone (d !! key))
  | _ => Raise AttributeError
  end.

(** [v[key]] with a string key. *)
Definition py_subscript (v : pyval) (key : string) : result pyval :=
  match v with
  | PDict d => match d !! key with Some x => Ok x | None => Raise KeyError end
  | _ => Raise TypeError
  end.

(** [v[key] = x] with a string key: a dict takes it, a list or a string
    refuses a string index, the other values support no item assignment. *)
Definition py_setitem (v : pyval) (key : string) (x : pyval) : result pyval :=
  match v with
  | PDict d => Ok (PDict (<[key := x]> d))
  | _ => Raise TypeError
  end.

(** An integer operand: [bool] is a subclass of [int] in Python. *)
Definition py_int (v : pyval) : result Z :=
  match v with
  | PInt n => Ok n
  | PBool b => Ok (if b then 1 else 0)
  | _ => Raise TypeError
  end.

(** [len(v)]. *)
Definition py_len (v : pyval) : result Z :=
  match v with
  | PStr s => Ok (Z.of_nat (String.length s))
  | PList l => Ok (Z.of_nat (length l))
  | PDict d => Ok (Z.of_nat (size d))
  | _ => Raise TypeError
  end.

Definition chars (s : string) : list pyval :=
  (fun c => PStr (String c EmptyString)) <$> String.list_ascii_of_string s.

(** The items that [for x in v] goes through: the elements of a list, the
    characters of a string, the keys of a dict. *)
Definition py_iter (v : pyval) : result (list pyval) :=
  match v with
  | PList l => Ok l
  | PStr s => Ok (chars s)
  | PDict d => Ok (PStr <$> (map_to_list d).*1)
  | _ => Raise TypeError
  end.

(** [l[:n]] on a list: a negative [n] counts from the end. *)
Definition slice_to {A} (n : Z) (l : list A) : list A :=
  if 0 <=? n then take (Z.to_nat n) l
  else take (Z.to_nat (Z.of_nat (length l) + n)) l.

(** [v[:n]]: lists and strings can be sliced. *)
Definition py_slice_to (v : pyval) (n : Z) : result (list pyval) :=
  match v with
  | PList l => Ok (slice_to n l)
  | PStr s => Ok (slice_to n (chars s))
  | _ => Raise TypeError
  end.

(** ** Text helpers *)

(** [s.lower()] on ASCII text. *)
Definition lower_ascii (c : ascii) : ascii :=
  let n := Ascii.nat_of_ascii c in
  if (Nat.leb 65 n && Nat.leb n 90)%bool then Ascii.ascii_of_nat (n + 32)%nat else c.

Fixpoint lower (s : string) : string :=
  match s with
  | EmptyString => EmptyString
  | String c t => String (lower_ascii c) (lower t)
  end.

(** [needle in hay] on strings. *)
Fixpoint contains (needle hay : string) : bool :=
  if String.prefix needle hay then true
  else match hay with
       | EmptyString => false
       | String _ t => contains needle t
       end.

(** [s * n]. *)
Fixpoint repeat_str (s : string) (n : nat) : string :=
  match n with
  | O => EmptyString
  | S k => s +:+ repeat_str s k
  end.

(** [s[:n]] for [0 <= n]. *)
Fixpoint str_take (n : nat) (s : string) : string :=
  match n, s with
  | S k, String c t => String c (str_take k t)
  | _, _ => EmptyString
  end.

Definition is_newline (c : ascii) : bool :=
  (Ascii.eqb c "010"%char || Ascii.eqb c "013"%char)%bool.

(** [re.sub("[\r\n]+", " ", s)]: every maximal run of line breaks becomes
    one space. [in_run] says that the previous character was a line break. *)
Fixpoint collapse_newlines (in_run : bool) (s : string) : string :=
  match s with
  | EmptyString => EmptyString
  | String c t =>
      if is_newline c
      then (if in_run then collapse_newlines true t
            else String " " (collapse_newlines true t))
      else String c (collapse_newlines false t)
  end.

(** ** Library functions and the outside world *)

(** What [datetime.fromisoformat] builds: an instant on the UTC time line
    when the text carries an offset, a wall-clock reading without a time
    zone when it does not. Both count microseconds. *)
Inductive datetime : Type :=
  | Aware (utc_us : Z)
  | Naive (wall_us : Z).

Record Runtime : Type := {
  (** [str(v)], which is also what [format] and f-strings insert *)
  py_str : pyval -> string;
  (** [json.loads] on a text; [None] when it raises *)
  json_loads : string -> option pyval;
  (** [json.dumps] *)
  json_dumps : pyval -> string;
  (** [datetime.fromisoformat] on a text; [None] when it raises *)
  fromisoformat : string -> option datetime;
  (** [isoformat()] of a UTC instant *)
  isoformat : Z -> string;
  (** [strftime(strptime(text, fmt_in), fmt_out)]; [None] when it raises *)
  strptime_strftime : string -> string -> string -> option string;
  (** [datetime.now(timezone.utc)] at the given step of the run *)
  utcnow : nat -> Z;
  (** whether [urllib.request.Request(url)] accepts the URL *)
  request_accepts : string -> bool;
  (** [urlopen(req).read().decode("utf-8")] at the given step of the run;
      [None] when any of the three raises *)
  urlopen : nat -> string -> option string;
  (** whether [open(name, "w")] succeeds *)
  writable : string -> bool
}.

(** ** CacheTool.py *)

Module CacheTool.

Definition DEFAULT_CACHE_EXPIRATION : Z := 24.
Definition DEFAULT_CACHE_FILE_NAME : string := "cache.json".

Record CacheStats : Type := mkCacheStats {
  num_hits : Z;
  num_misses : Z;
  num_expired : Z;
  num_invalid : Z
}.

Definition hit (s : CacheStats) : CacheStats :=
  mkCacheStats (num_hits s + 1) (num_misses s) (num_expired s) (num_invalid s).
Definition miss (s : CacheStats) : CacheStats :=
  mkCacheStats (num_hits s) (num_misses s + 1) (num_expired s) (num_invalid s).
Definition expired (s : CacheStats) : CacheStats :=
  mkCacheStats (num_hits s) (num_misses s) (num_expired s + 1) (num_invalid s).
Definition invalid (s : CacheStats) : CacheStats :=
  mkCacheStats (num_hits s) (num_misses s) (num_expired s) (num_invalid s + 1).

Record Cacher : Type := mkCacher {
  enabled : bool;
  cache_file_name : string;
  cache_expiration_hours : Z;
  cache_dict : pyval;
  stats : CacheStats
}.

(** Assignments to the attributes of the cacher: [self.enabled = b],
    [self.cache_dict = d], and a call of one of the four methods of
    [self.stats]. *)
Definition set_enabled (b : bool) (c : Cacher) : Cacher :=
  mkCacher b (cache_file_name c) (cache_expiration_hours c) (cache_dict c) (stats c).
Definition set_cache_dict (d : pyval) (c : Cacher) : Cacher :=
  mkCacher (enabled c) (cache_file_name c) (cache_expiration_hours c) d (stats c).
Definition count (f : CacheStats -> CacheStats) (c : Cacher) : Cacher :=
  mkCacher (enabled c) (cache_file_name c) (cache_expiration_hours c)
           (cache_dict c) (f (stats c)).

(** The files of the machine: name to content. *)
Abbreviation Disk := (gmap string string).

(** [timedelta(hours = h)] in microseconds. *)
Definition hours_us (h : Z) : Z := h * 3600000000.

Section Cacher.
Context (R : Runtime).

(** [load_cache_file]: a missing file leaves the empty store, a file that
    does not load disables the cache. *)
Definition load_cache_file (disk : Disk) (c : Cacher) : Cacher :=
  if negb (enabled c) then c
  else match disk !! cache_file_name c with
       | None => c
       | Some text =>
           match json_loads R text with
           | None => set_enabled false c
           | Some d => set_cache_dict d c
           end
       end.

(** [save_cache_file]: the whole store replaces the file; a failure to
    open it is logged and nothing else happens. *)
Definition save_cache_file (disk : Disk) (c : Cacher) : Disk :=
  if negb (enabled c) then disk
  else if writable R (cache_file_name c)
       then <[cache_file_name c := json_dumps R (cache_dict c)]> disk
       else disk.

(** The body of the [try] in [read_cached_data], up to the comparison:
    [Some true] when the entry is fresh, [Some false] when it has expired,
    [None] when an exception sends control to the [except] clause
    ([fromisoformat] raised, or the subtraction of a naive [datetime] from
    an aware one did). *)
Definition timestamp_fresh (now : Z) (ttl_hours : Z) (timestampStr : pyval)
  : option bool :=
  match timestampStr with
  | PStr s =>
      match fromisoformat R s with
      | Some (Aware timestampUTC) =>
          Some (now - timestampUTC <? hours_us ttl_hours)
      | Some (Naive _) => None
      | None => None
      end
  | _ => None
  end.

Definition read_cached_data (now : Z) (key : string) (c : Cacher)
  : result pyval * Cacher :=
  if negb (enabled c) then (Ok PNone, c)
  else
    match py_get (cache_dict c) key with
    | Raise e => (Raise e, c)
    | Ok PNone => (Ok PNone, count miss c)
    | Ok cache_entry =>
        match py_get cache_entry "timestamp" with
        | Raise e => (Raise e, c)
        | Ok timestampStr =>
            if truthy timestampStr then
              match timestamp_fresh now (cache_expiration_hours c) timestampStr with
              | Some true => (py_get cache_entry "data", count hit c)
              | Some false => (Ok PNone, count expired c)
              | None => (Ok PNone, count invalid c)
              end
            else (Ok PNone, count invalid c)
        end
    end.

Definition new_entry (now : Z) (data : pyval) : pyval :=
  PDict (<["timestamp" := PStr (isoformat R now)]> (<["data" := data]> ∅)).

Definition write_cached_data (now : Z) (key : string) (data : pyval) (c : Cacher)
  : result unit * Cacher :=
  if negb (enabled c) then (Ok tt, c)
  else
    match py_setitem (cache_dict c) key (new_entry now data) with
    | Ok d => (Ok tt, set_cache_dict d c)
    | Raise e => (Raise e, c)
    end.

(** [Cacher.__init__], which is all that [initialize] calls. *)
Definition initialize (disk : Disk) (enabled : bool) (cache_file_name : string)
    (expire_in_hours : Z) : Cacher :=
  load_cache_file disk
    (mkCacher enabled cache_file_name expire_in_hours (PDict ∅)
              (mkCacheStats 0 0 0 0)).

End Cacher.
End CacheTool.

(** ** treelib

    The tree library is not part of the repository; this is the part of its
    behaviour that [FRED_API.py] relies on. A tree is the list of its nodes
    in the order of their creation. A node created without an identifier
    gets a fresh one from the library ([Auto]); an identifier chosen by the
    caller is [Named]. *)

Module treelib.

Inductive node_id : Type :=
  | Named (s : string)
  | Auto (n : nat).

#[export] Instance node_id_eq_dec : EqDecision node_id.
Proof. solve_decision. Defined.

Record Node : Type := mkNode {
  identifier : node_id;
  tag : string;
  predecessor : option node_id
}.

Abbreviation Tree := (list Node).

Definition has_id (nid : node_id) (nd : Node) : bool :=
  bool_decide (identifier nd = nid).

Definition get_node (nid : node_id) (t : Tree) : option Node :=
  List.find (has_id nid) t.

(** [tree.create_node(tag, identifier, parent = parent)]: the identifier
    must be new, the parent must exist, and only the first node may have
    no parent. *)
Definition create_node (tag : string) (identifier : option string)
    (parent : option string) (t : Tree) : result unit * Tree :=
  let nid := match identifier with
             | Some s => Named s
             | None => Auto (length t)
             end in
  if bool_decide (is_Some (get_node nid t)) then (Raise DuplicatedNodeIdError, t)
  else match parent with
       | None =>
           match t with
           | [] => (Ok tt, [mkNode nid tag None])
           | _ :: _ => (Raise MultipleRootError, t)
           end
       | Some p =>
           if bool_decide (is_Some (get_node (Named p) t))
           then (Ok tt, t ++ [mkNode nid tag (Some (Named p))])
           else (Raise NodeIDAbsentError, t)
       end.

(** [node.tag += suffix] on the node [nid] of the tree. *)
Definition append_tag (nid : node_id) (suffix : string) (t : Tree) : Tree :=
  (fun nd => if has_id nid nd
             then mkNode (identifier nd) (tag nd +:+ suffix) (predecessor nd)
             else nd) <$> t.

End treelib.

(** ** FRED_API.py *)

Module FRED_API.
Import treelib.

Definition API_KEY_PARAM_NAME : string := "api_key".

(** [CONFIG["FRED_API"]] as read from the configuration file. *)
Record Config : Type := mkConfig {
  BASE_URL : string;
  ROOT_CATEGORY : pyval;
  LIMIT_DEPTH : Z;
  LIMIT_SERIES : Z;
  THROTTLE : Z
}.

Record AppStats : Type := mkAppStats {
  total_categories : Z;
  total_series : Z;
  total_server_calls : Z
}.

(** What the run does that can be seen from outside the application
    object: the keys it hands to the cache, the URLs it sends to the
    server, and the progress line that [process_category] logs for the
    category it is working on. *)
Inductive event : Type :=
  | CacheRead (key : string)
  | CacheWrite (key : string) (data : pyval)
  | Request (url : string)
  | Progress (text : string).

(** The application object. [fred_data_tree] is the one tree of the run,
    which every call of [process_category] receives as [tree]. [steps]
    counts the readings of the clock and the calls to the server so far;
    [trace] lists the events so far, oldest first. *)
Record App : Type := mkApp {
  stats : AppStats;
  APICacher : CacheTool.Cacher;
  fred_data_tree : Tree;
  steps : nat;
  trace : list event
}.

(** A method of [Application]. *)
Definition M (A : Type) : Type := App -> result A * App.

Definition ret {A} (a : A) : M A := fun st => (Ok a, st).
Definition raise {A} (e : exn) : M A := fun st => (Raise e, st).
Definition bind {A B} (m : M A) (f : A -> M B) : M B :=
  fun st => match m st with
            | (Ok a, st') => f a st'
            | (Raise e, st') => (Raise e, st')
            end.
Definition lift {A} (r : result A) : M A := fun st => (r, st).

(** [try: m  except: h] with a bare [except], which catches everything. *)
Definition try_except {A} (m : M A) (h : M A) : M A :=
  fun st => match m st with
            | (Ok a, st') => (Ok a, st')
            | (Raise _, st') => h st'
            end.

Notation "x <- m ;; k" := (bind m (fun x => k))
  (at level 100, m at next level, right associativity).
Notation "m ;;; k" := (bind m (fun _ => k))
  (at level 100, right associativity).

Definition emit (e : event) : M unit :=
  fun st => (Ok tt, mkApp (stats st) (APICacher st) (fred_data_tree st)
                          (steps st) (trace st ++ [e])).

(** The number of the next step of the run, which is then used up. *)
Definition tick : M nat :=
  fun st => (Ok (steps st), mkApp (stats st) (APICacher st) (fred_data_tree st)
                                  (S (steps st)) (trace st)).

Definition on_stats (f : AppStats -> AppStats) : M unit :=
  fun st => (Ok tt, mkApp (f (stats st)) (APICacher st) (fred_data_tree st)
                          (steps st) (trace st)).

Definition inc_categories (num : Z) : M unit :=
  on_stats (fun s => mkAppStats (total_categories s + num) (total_series s)
                                (total_server_calls s)).
Definition inc_series (num : Z) : M unit :=
  on_stats (fun s => mkAppStats (total_categories s) (total_series s + num)
                                (total_server_calls s)).
Definition inc_server_calls : M unit :=
  on_stats (fun s => mkAppStats (total_categories s) (total_series s)
                                (total_server_calls s + 1)).

(** A method of the cacher, run on [self.APICacher]. *)
Definition on_cacher {A}
    (f : CacheTool.Cacher -> result A * CacheTool.Cacher) : M A :=
  fun st => let '(r, c) := f (APICacher st) in
            (r, mkApp (stats st) c (fred_data_tree st) (steps st) (trace st)).

(** A method of the tree, run on the tree of the run. *)
Definition on_tree {A} (f : Tree -> result A * Tree) : M A :=
  fun st => let '(r, t) := f (fred_data_tree st) in
            (r, mkApp (stats st) (APICacher st) t (steps st) (trace st)).

Section Application.
Context (R : Runtime) (CONFIG : Config) (api_key : string).

(** Line 133: the parameter that carries the credential. *)
Definition API_KEY_PARAMETER : string :=
  API_KEY_PARAM_NAME +:+ "=" +:+ api_key.

(** [self.APICacher.read_cached_data(key)], at the time that the clock
    shows at this step of the run. *)
Definition read_cached_data (key : string) : M pyval :=
  emit (CacheRead key) ;;;
  k <- tick ;;
  on_cacher (CacheTool.read_cached_data R (utcnow R k) key).

(** [self.APICacher.write_cached_data(key, data)], likewise. *)
Definition write_cached_data (key : string) (data : pyval) : M unit :=
  emit (CacheWrite key data) ;;;
  k <- tick ;;
  on_cacher (CacheTool.write_cached_data R (utcnow R k) key data).

(** [sleep(seconds)] refuses a negative length; the time that passes shows
    in the clock of the runtime. *)
Definition sleep (seconds : Z) : M unit :=
  if seconds <? 0 then raise ValueError else ret tt.

Definition make_api_request (requestURL : string) : M pyval :=
  inc_server_calls ;;;
  sleep (THROTTLE CONFIG) ;;;
  let urlWithKey := requestURL +:+ "&" +:+ API_KEY_PARAMETER in
  if negb (request_accepts R urlWithKey) then raise ValueError
  else
    emit (Request urlWithKey) ;;;
    k <- tick ;;
    match urlopen R k urlWithKey with
    | Some text => ret (PStr text)
    | None => ret PNone
    end.

Definition make_caching_request (requestURL : string) : M pyval :=
  data <- read_cached_data requestURL ;;
  if negb (truthy data) then
    data <- make_api_request requestURL ;;
    write_cached_data requestURL data ;;;
    ret data
  else ret data.

(** [json.loads(data)]: only text is accepted. *)
Definition loads (data : pyval) : result pyval :=
  match data with
  | PStr s => match json_loads R s with
              | Some v => Ok v
              | None => Raise JSONDecodeError
              end
  | _ => Raise TypeError
  end.

Definition full_url (rest_path : string) : string :=
  BASE_URL CONFIG +:+ "/" +:+ rest_path +:+ "&file_type=json".

Definition get_rest_data (rest_path : string) : M pyval :=
  let fullURL := full_url rest_path in
  if contains API_KEY_PARAM_NAME (lower rest_path) then raise (SystemExit (-999))
  else
    try_except
      (data <- make_caching_request fullURL ;; lift (loads data))
      (ret (PDict ∅)).

(** The [url] of [get_child_categories]. *)
Definition child_categories_url (parentCategoryID : pyval) : string :=
  "category/children?category_id=" +:+ py_str R parentCategoryID.

Definition get_child_categories (parentCategoryID : pyval) : M pyval :=
  get_rest_data (child_categories_url parentCategoryID).

(** The [url] of [get_children_series]. *)
Definition children_series_url (parentCategoryID : pyval) : string :=
  "category/series?category_id=" +:+ py_str R parentCategoryID
  +:+ "&limit=" +:+ py_str R (PInt (LIMIT_SERIES CONFIG)).

Definition get_children_series (parentCategoryID : pyval) : M pyval :=
  get_rest_data (children_series_url parentCategoryID).

(** The double quote character, as a text. *)
Definition dquote : string := String (Ascii.ascii_of_nat 34) EmptyString.

(** The nested [reformat_date_string]: the formats are tried in order, an
    exception moves on to the next one (a value that is not a text already
    fails at [api_datetime + inputTZFudge]), and the input comes back
    unchanged when none fits. *)
Definition date_formats : list (string * string * string) :=
  [ ("%Y-%m-%d %H:%M:%S%z", "%b %d, %Y %r", "00");
    ("%Y-%m-%d", "%b %d, %Y", "") ].

Fixpoint reformat_with (formats : list (string * string * string))
    (api_datetime : pyval) : pyval :=
  match formats with
  | [] => api_datetime
  | (inputFormat, outputFormat, inputTZFudge) :: rest =>
      match api_datetime with
      | PStr s =>
          match strptime_strftime R inputFormat outputFormat (s +:+ inputTZFudge) with
          | Some text => PStr text
          | None => reformat_with rest api_datetime
          end
      | _ => reformat_with rest api_datetime
      end
  end.

Definition reformat_date_string (api_datetime : pyval) : pyval :=
  reformat_with date_formats api_datetime.

(** [v == "SA"]. *)
Definition is_SA (v : pyval) : bool :=
  match v with
  | PStr s => String.eqb s "SA"
  | _ => false
  end.

(** ["; ".join(attributes)]: every item must be a text. *)
Fixpoint join_attributes (attributes : list pyval) : result string :=
  match attributes with
  | [] => Ok ""
  | [PStr s] => Ok s
  | PStr s :: rest =>
      match join_attributes rest with
      | Ok t => Ok (s +:+ "; " +:+ t)
      | Raise e => Raise e
      end
  | _ :: _ => Raise TypeError
  end.

(** The label made from the notes of a series: line breaks collapsed, at
    most 100 characters shown, the rest counted. Only a text has notes that
    can be cut and searched. *)
Definition notes_label (notes : pyval) : result string :=
  match notes with
  | PStr s =>
      let text := collapse_newlines false (str_take (Z.to_nat 9999) s) in
      let max_display_len := 100%nat in
      let text_len := String.length text in
      if Nat.leb max_display_len text_len
      then Ok (dquote +:+ str_take max_display_len text +:+ "..." +:+ dquote +:+ " [+"
               +:+ py_str R (PInt (Z.of_nat text_len - Z.of_nat max_display_len))
               +:+ "]")
      else Ok (dquote +:+ text +:+ dquote)
  | _ => Raise TypeError
  end.

Definition when (b : bool) (m : M unit) : M unit := if b then m else ret tt.

Definition process_series (series : pyval) (categoryID : pyval) : M unit :=
  title <- lift (py_subscript series "title") ;;
  id <- lift (py_subscript series "id") ;;
  let text := "[" +:+ py_str R id +:+ "] " +:+ py_str R title in
  let nodeIdentifier := py_str R categoryID +:+ "/" +:+ py_str R id in
  on_tree (create_node text (Some nodeIdentifier) (Some (py_str R categoryID))) ;;;
  notes <- lift (py_get series "notes") ;;
  when (truthy notes)
    (text <- lift (notes_label notes) ;;
     on_tree (create_node text None (Some nodeIdentifier))) ;;;
  frequency <- lift (py_get series "frequency") ;;
  let attributes := if truthy frequency then [frequency] else [] in
  seasonal <- lift (py_get series "seasonal_adjustment") ;;
  short <- lift (py_get series "seasonal_adjustment_short") ;;
  let attributes :=
    if (truthy seasonal && is_SA short)%bool then attributes ++ [seasonal]
    else attributes in
  last_updated <- lift (py_get series "last_updated") ;;
  let attributes :=
    if truthy last_updated
    then attributes ++
         [PStr ("Updated " +:+ py_str R (reformat_date_string last_updated))]
    else attributes in
  observation_start <- lift (py_get series "observation_start") ;;
  observation_end <- lift (py_get series "observation_end") ;;
  let attributes :=
    if (truthy observation_start && truthy observation_end)%bool
    then attributes ++
         [PStr ("Observations "
                +:+ py_str R (reformat_date_string observation_start)
                +:+ " to "
                +:+ py_str R (reformat_date_string observation_end))]
    else attributes in
  when (negb (Nat.eqb (length attributes) 0))
    (text <- lift (join_attributes attributes) ;;
     on_tree (create_node text None (Some nodeIdentifier))).

(** The [for] loop of [process_children_series]: one [process_series] per
    item, and [num_remaining] goes down by one each time. *)
Fixpoint for_series (items : list pyval) (categoryID : pyval)
    (num_remaining : Z) : M Z :=
  match items with
  | [] => ret num_remaining
  | series :: rest =>
      process_series series categoryID ;;;
      for_series rest categoryID (num_remaining - 1)
  end.

(** The nested [process_children_series]: it returns
    [(num_series, num_descendent_series)]. *)
Definition process_children_series (children_series : pyval)
    (categoryID : pyval) : M (Z * Z) :=
  num_series <- lift (py_get children_series "count") ;;
  seriess <- lift (py_get children_series "seriess") ;;
  if (truthy num_series && truthy seriess)%bool then
    num_series <- lift (py_int num_series) ;;
    inc_series num_series ;;;
    let num_descendent_series := num_series in
    shown <- lift (py_slice_to seriess (LIMIT_SERIES CONFIG)) ;;
    num_remaining <- for_series shown categoryID num_series ;;
    when (0 <? num_remaining)
      (on_tree (create_node
                  ("plus " +:+ py_str R (PInt num_remaining) +:+ " additional series...")
                  None (Some (py_str R categoryID)))) ;;;
    ret (num_series, num_descendent_series)
  else ret (0, 0).

(** The [for subdict in categories] loop of [process_category]; [recurse]
    is the call [self.process_category(depth + 1, subdict, tree)], and the
    pair carried along is
    [(num_descendent_categories, num_descendent_series)]. *)
Fixpoint for_categories (recurse : pyval -> M (Z * Z)) (categoryID : pyval)
    (categories : list pyval) (totals : Z * Z) : M (Z * Z) :=
  match categories with
  | [] => ret totals
  | subdict :: rest =>
      name <- lift (py_subscript subdict "name") ;;
      id <- lift (py_subscript subdict "id") ;;
      let text := "[#" +:+ py_str R id +:+ "] " +:+ py_str R name in
      on_tree (create_node text (Some (py_str R id)) (Some (py_str R categoryID))) ;;;
      num_descendents <- recurse subdict ;;
      for_categories recurse categoryID rest
        (fst totals + fst num_descendents, snd totals + snd num_descendents)
  end.

(** [cat_node.tag += suffix], where [cat_node = tree.get_node(nid)] is
    [None] when the tree has no such node. *)
Definition append_to_tag (nid : string) (suffix : string) : M unit :=
  on_tree (fun t => match get_node (Named nid) t with
                    | Some _ => (Ok tt, append_tag (Named nid) suffix t)
                    | None => (Raise AttributeError, t)
                    end).

(** The second half of [process_category], from the request for the child
    categories to the [return]; [recurse] stands for the method itself at
    [depth + 1], and [num_series], [num_descendent_series] are what the
    first half got from [process_children_series]. *)
Definition process_child_categories (recurse : pyval -> M (Z * Z))
    (categoryID : pyval) (num_series num_descendent_series : Z) : M (Z * Z) :=
  children_categories <- get_child_categories categoryID ;;
  categories <- lift (py_get children_categories "categories") ;;
  counts <-
    (if truthy categories then
       num_categories <- lift (py_len categories) ;;
       inc_categories num_categories ;;;
       subdicts <- lift (py_iter categories) ;;
       totals <- for_categories recurse categoryID subdicts
                   (num_categories, num_descendent_series) ;;
       ret (num_categories, totals)
     else ret (0, (0, num_descendent_series))) ;;
  let num_categories := fst counts in
  let num_descendent_categories := fst (snd counts) in
  let num_descendent_series := snd (snd counts) in
  when ((0 <? num_categories) || (0 <? num_descendent_categories))%bool
    (append_to_tag (py_str R categoryID)
       (", contains " +:+ py_str R (PInt num_categories) +:+ "/"
        +:+ py_str R (PInt num_descendent_categories) +:+ " categories")) ;;;
  when ((0 <? num_series) || (0 <? num_descendent_series))%bool
    (append_to_tag (py_str R categoryID)
       (", contains " +:+ py_str R (PInt num_series) +:+ "/"
        +:+ py_str R (PInt num_descendent_series) +:+ " series")) ;;;
  ret (num_descendent_categories, num_descendent_series).

(** [process_category] below its depth test. *)
Definition process_category_body (recurse : pyval -> M (Z * Z)) (depth : Z)
    (categoryDict : pyval) : M (Z * Z) :=
  categoryID <- lift (py_subscript categoryDict "id") ;;
  categoryName <- lift (py_subscript categoryDict "name") ;;
  emit (Progress (repeat_str " " (Z.to_nat (4 * depth)) +:+ "[#"
                  +:+ py_str R categoryID +:+ "] " +:+ py_str R categoryName)) ;;;
  children_series <- get_children_series categoryID ;;
  direct <- process_children_series children_series categoryID ;;
  process_child_categories recurse categoryID (fst direct) (snd direct).

(** The recursion of [process_category] goes one level down at each call
    and stops below [LIMIT_DEPTH]: [levels] is the number of levels from
    [depth] to [LIMIT_DEPTH], both included. *)
Fixpoint process_category_levels (levels : nat) (depth : Z)
    (categoryDict : pyval) : M (Z * Z) :=
  match levels with
  | O => ret (0, 0)
  | S k =>
      process_category_body (process_category_levels k (depth + 1))
                            depth categoryDict
  end.

Definition process_category (depth : Z) (categoryDict : pyval) : M (Z * Z) :=
  process_category_levels (Z.to_nat (LIMIT_DEPTH CONFIG - depth + 1))
                          depth categoryDict.

(** [initialize_tree]. *)
Definition initialize_tree : Tree :=
  snd (create_node ("FRED® Services API at " +:+ BASE_URL CONFIG)
                   (Some (py_str R (ROOT_CATEGORY CONFIG))) None []).

(** The traversal that [main] starts, lines 454 to 458. *)
Definition rootCategoryDict : pyval :=
  PDict (<["name" := PStr "<root>"]> (<["id" := ROOT_CATEGORY CONFIG]> ∅)).

Definition traverse : M (Z * Z) := process_category 0 rootCategoryDict.

End Application.
End FRED_API.

(** ** A small world to run the code in

    The examples below run the code against a server given by a table from
    URLs to response bodies and a decoder given by a table from bodies to
    values. The clock advances by one second at each step. Timestamps are
    written as the word [utc] and the number of microseconds; a bare number
    reads as a time without a zone. *)

Module Demo.
Import treelib FRED_API.

Definition decimal (n : Z) : string := NilZero.string_of_int (Z.to_int n).

Definition demo_str (v : pyval) : string :=
  match v with
  | PNone => "None"
  | PBool true => "True"
  | PBool false => "False"
  | PInt n => decimal n
  | PStr s => s
  | PList _ => "[...]"
  | PDict _ => "{...}"
  end.

Definition lookup_table {A} (table : list (string * A)) (key : string) : option A :=
  snd <$> List.find (fun p => String.eqb (fst p) key) table.

Definition undecimal (s : string) : option Z :=
  Z.of_int <$> NilZero.int_of_string s.

Definition demo_fromisoformat (s : string) : option datetime :=
  if String.prefix "utc " s
  then Aware <$> undecimal (String.substring 4 (String.length s - 4) s)
  else Naive <$> undecimal s.

Definition runtime (pages : list (string * string))
    (values : list (string * pyval)) : Runtime :=
  {| py_str := demo_str;
     json_loads := lookup_table values;
     json_dumps := fun _ => "{}";
     fromisoformat := demo_fromisoformat;
     isoformat := fun t => "utc " +:+ decimal t;
     strptime_strftime := fun _ _ _ => None;
     utcnow := fun k => Z.of_nat k * 1000000;
     request_accepts := fun _ => true;
     urlopen := fun _ url => lookup_table pages url;
     writable := fun _ => true |}.

Definition config (limit_depth limit_series : Z) : Config :=
  mkConfig "https://fred" (PInt 0) limit_depth limit_series 0.

Definition key : string := "abcdefghijklmnopqrstuvwxyz123456".

Definition empty_cacher (enabled : bool) : CacheTool.Cacher :=
  CacheTool.mkCacher enabled "cache.json" 24 (PDict ∅)
                     (CacheTool.mkCacheStats 0 0 0 0).

(** The application as [initialize] leaves it. *)
Definition start (R : Runtime) (C : Config) (enabled : bool) : App :=
  mkApp (mkAppStats 0 0 0) (empty_cacher enabled) (initialize_tree R C) 0 [].

Definition series_url (id : string) (limit : string) : string :=
  "https://fred/category/series?category_id=" +:+ id +:+ "&limit=" +:+ limit
  +:+ "&file_type=json&api_key=" +:+ key.
Definition children_url (id : string) : string :=
  "https://fred/category/children?category_id=" +:+ id
  +:+ "&file_type=json&api_key=" +:+ key.

Definition category (id : Z) (name : string) : pyval :=
  PDict (<["id" := PInt id]> (<["name" := PStr name]> ∅)).
Definition series_page (count : Z) (l : list pyval) : pyval :=
  PDict (<["count" := PInt count]> (<["seriess" := PList l]> ∅)).
Definition categories_page (l : list pyval) : pyval :=
  PDict (<["categories" := PList l]> ∅).

(** The hierarchy of the depth scenario: the root 0 has the children 1 and
    2, 1 has the child 11 and 2 has the child 21. No category has series. *)
Definition pages2 : list (string * string) :=
  [ (series_url "0" "5", "no series");
    (series_url "1" "5", "no series");
    (series_url "2" "5", "no series");
    (children_url "0", "children of 0");
    (children_url "1", "children of 1");
    (children_url "2", "children of 2");
    (children_url "11", "no children");
    (children_url "21", "no children") ].
Definition values2 : list (string * pyval) :=
  [ ("children of 0", categories_page [category 1 "one"; category 2 "two"]);
    ("children of 1", categories_page [category 11 "one-one"]);
    ("children of 2", categories_page [category 21 "two-one"]);
    ("no children", categories_page []);
    ("no series", series_page 0 []) ].

(** A category that reports 5 series and delivers none, and has no child
    category. *)
Definition pages5 : list (string * string) :=
  [ (series_url "0" "5", "five series, none listed");
    (children_url "0", "no children") ].
Definition values5 : list (string * pyval) :=
  [ ("five series, none listed", series_page 5 []);
    ("no children", categories_page []) ].

Definition series (id title : string) : pyval :=
  PDict (<["id" := PStr id]> (<["title" := PStr title]> ∅)).

(** A category that reports 500 series and delivers the first 100. *)
Definition hundred : list pyval :=
  (fun i => series ("S" +:+ decimal (Z.of_nat i)) "a series") <$> seq 0 100.
Definition page500 : gmap string pyval :=
  <["count" := PInt 500]> (<["seriess" := PList hundred]> ∅).

Definition pages500 : list (string * string) :=
  [ (series_url "0" "100", "five hundred series, a hundred listed");
    (children_url "0", "no children") ].
Definition values500 : list (string * pyval) :=
  [ ("five hundred series, a hundred listed", PDict page500);
    ("no children", categories_page []) ].

(** An entry written at time 0 after a call that failed. *)
Definition stale_entry : pyval :=
  PDict (<["timestamp" := PStr "utc 0"]> {["data" := PNone]}).

(** A server that answers nothing and a decoder that knows nothing. *)
Definition offline : Runtime := runtime [] [].

End Demo.


(** ** Statements about the cache *)

Module CacheSpec.
Import CacheTool.

(** The four ways a read can be counted. *)
Inductive verdict : Type := Hit | Miss | Expired | Invalid.

Definition bump (v : verdict) : CacheStats -> CacheStats :=
  match v with
  | Hit => hit
  | Miss => miss
  | Expired => expired
  | Invalid => invalid
  end.

(** No counter has gone down. *)
Definition stats_le (s s' : CacheStats) : Prop :=
  num_hits s <= num_hits s' /\ num_misses s <= num_misses s' /\
  num_expired s <= num_expired s' /\ num_invalid s <= num_invalid s'.

(** The sentence "every call to [read_cached_data] increments exactly one
    of the four counters", for one call. *)
Definition read_counts_once (R : Runtime) (now : Z) (key : string)
    (c : Cacher) : Prop :=
  exists v, stats (snd (read_cached_data R now key c)) = bump v (stats c).

(** The entry of [key] carries a timestamp that reads as the UTC instant
    [t]: a text that is not empty and that [fromisoformat] turns into a
    time with an offset. *)
Definition stamped (R : Runtime) (d : gmap string pyval) (key : string)
    (entry : gmap string pyval) (t : Z) : Prop :=
  exists s, d !! key = Some (PDict entry) /\
            entry !! "timestamp" = Some (PStr s) /\ s <> "" /\
            fromisoformat R s = Some (Aware t).

(** The store is a mapping whose entries are objects (or null). *)
Definition well_formed_store (d : gmap string pyval) : Prop :=
  forall key e, d !! key = Some e -> e = PNone \/ exists entry, e = PDict entry.

(** The cache has been switched off, by its configuration or by a cache
    file that did not load. *)
Definition disabled (R : Runtime) (c : Cacher) : Prop :=
  enabled c = false \/
  exists (disk : Disk) c0 text,
    c = load_cache_file R disk c0 /\
    disk !! cache_file_name c0 = Some text /\ json_loads R text = None.

End CacheSpec.

(** ** Statements about the request layer *)

Module RequestSpec.
Import FRED_API.

(** The URL that goes to the server for the request [url]. *)
Definition url_with_key (api_key url : string) : string :=
  url +:+ "&" +:+ API_KEY_PARAMETER api_key.

(** What [make_api_request] returns when the server is asked at step [k]. *)
Definition response (R : Runtime) (k : nat) (urlWithKey : string) : pyval :=
  match urlopen R k urlWithKey with
  | Some text => PStr text
  | None => PNone
  end.

(** The state after a request that went to the server: the read took the
    step [steps st], the call to the server the next one, the write the
    one after. *)
Definition after_refetch (R : Runtime) (api_key url : string) (st : App)
    (c : CacheTool.Cacher) : App :=
  let data := response R (S (steps st)) (url_with_key api_key url) in
  mkApp (mkAppStats (total_categories (stats st)) (total_series (stats st))
                    (total_server_calls (stats st) + 1))
        c (fred_data_tree st) (S (S (S (steps st))))
        (trace st ++ [CacheRead url; Request (url_with_key api_key url);
                      CacheWrite url data]).

(** The sentence of C6 for one request: the cache has nothing for the URL,
    the server fails, and the store is the same afterwards. *)
Definition failed_call_writes_nothing (R : Runtime) (C : Config)
    (api_key url : string) (st : App) : Prop :=
  fst (CacheTool.read_cached_data R (utcnow R (steps st)) url (APICacher st))
    = Ok PNone ->
  urlopen R (S (steps st)) (url_with_key api_key url) = None ->
  CacheTool.cache_dict
    (APICacher (snd (make_caching_request R C api_key url st)))
  = CacheTool.cache_dict (APICacher st).

(** The key that an event hands to the cache. *)
Definition cache_key (e : event) : option string :=
  match e with
  | CacheRead k => Some k
  | CacheWrite k _ => Some k
  | _ => None
  end.

(** The sentence of C8 for one request: no key handed to the cache
    contains the credential. *)
Definition keys_never_hold_credential (R : Runtime) (C : Config)
    (api_key rest_path : string) (st : App) : Prop :=
  forall e k,
    e ∈ trace (snd (get_rest_data R C api_key rest_path st)) ->
    cache_key e = Some k -> contains api_key k = false.

(** What one request for [url] may do: read and write the cache under
    [url] itself, write the text that the server sent or [None], and send
    the server [url] with the credential appended. *)
Definition request_event_ok (api_key url : string) (e : event) : Prop :=
  match e with
  | CacheRead k => k = url
  | CacheWrite k data =>
      k = url /\ (data = PNone \/ exists text, data = PStr text)
  | Request sent => sent = url_with_key api_key url
  | Progress _ => False
  end.

(** The store is as before, but for the entry of [key]. *)
Definition same_but_at (key : string) (before after : pyval) : Prop :=
  before = after \/
  exists d entry, before = PDict d /\ after = PDict (<[key := entry]> d).

(** The sentence of C5 for one category: neither request raises. *)
Definition requests_never_raise (R : Runtime) (C : Config) (api_key : string)
    (categoryID : pyval) (st : App) : Prop :=
  (exists v st', get_children_series R C api_key categoryID st = (Ok v, st')) /\
  (exists v st', get_child_categories R C api_key categoryID st = (Ok v, st')).

(** The request for [rest_path] fails: getting the response raises, or the
    response does not decode. *)
Definition request_failed (R : Runtime) (C : Config) (api_key rest_path : string)
    (st : App) : Prop :=
  match make_caching_request R C api_key (full_url C rest_path) st with
  | (Raise _, _) => True
  | (Ok data, _) => exists e, loads R data = Raise e
  end.

End RequestSpec.

(** ** Statements about the traversal *)

Module TraversalSpec.
Import treelib FRED_API.

(** The nodes that one series adds to the tree: first the node of the
    series, named after the category and the series and hung under the
    category, then the nodes of its notes and of its attributes, hung
    under the node of the series. *)
Definition series_group (R : Runtime) (categoryID : pyval)
    (group : list Node) : Prop :=
  exists header rest seriesID,
    group = header :: rest /\
    identifier header
      = Named (py_str R categoryID +:+ "/" +:+ py_str R seriesID) /\
    predecessor header = Some (Named (py_str R categoryID)) /\
    Forall (fun nd => (exists k, identifier nd = Auto k) /\
                      predecessor nd = Some (identifier header)) rest.

(** The node that stands for the [n] series that are not shown; [k] is the
    number of nodes that the tree had before it. *)
Definition additional_series_node (R : Runtime) (categoryID : pyval)
    (k : nat) (n : Z) : Node :=
  mkNode (Auto k) ("plus " +:+ py_str R (PInt n) +:+ " additional series...")
         (Some (Named (py_str R categoryID))).

Definition Zsum (l : list Z) : Z := foldr Z.add 0 l.

(** The total that the server reports in a response for the series of a
    category: its [count]. *)
Definition reported_total (children_series : pyval) : Z :=
  match py_get children_series "count" with
  | Ok v => match py_int v with Ok n => n | Raise _ => 0 end
  | Raise _ => 0
  end.

(** The response carries both a total that is not zero and a list of
    items that is not empty. *)
Definition has_series (children_series : pyval) : bool :=
  match py_get children_series "count", py_get children_series "seriess" with
  | Ok num_series, Ok seriess => (truthy num_series && truthy seriess)%bool
  | _, _ => false
  end.

(** The total that the traversal takes from the response. *)
Definition counted_total (children_series : pyval) : Z :=
  if has_series children_series then reported_total children_series else 0.

(** The child categories that a response lists. *)
Definition listed_categories (children_categories : pyval)
  : result (list pyval) :=
  match py_get children_categories "categories" with
  | Ok categories =>
      if truthy categories
      then match py_len categories with
           | Ok _ => py_iter categories
           | Raise e => Raise e
           end
      else Ok []
  | Raise e => Raise e
  end.

(** The loop over the child categories, call by call: each child gets its
    node, then the recursive call on it returns its two counts, and the
    next child starts from the state that the call left. *)
Inductive child_calls (R : Runtime) (recurse : pyval -> M (Z * Z))
    (categoryID : pyval)
  : list pyval -> App -> list (Z * Z) -> App -> Prop :=
  | no_child st : child_calls R recurse categoryID [] st [] st
  | next_child subdict rest st name id st1 counts st2 results st3 :
      py_subscript subdict "name" = Ok name ->
      py_subscript subdict "id" = Ok id ->
      on_tree (create_node ("[#" +:+ py_str R id +:+ "] " +:+ py_str R name)
                 (Some (py_str R id)) (Some (py_str R categoryID))) st
        = (Ok tt, st1) ->
      recurse subdict st1 = (Ok counts, st2) ->
      child_calls R recurse categoryID rest st2 results st3 ->
      child_calls R recurse categoryID (subdict :: rest) st (counts :: results) st3.

(** One call of [process_category] on a visited node, step by step, with
    [total_of] for the number of series that the node itself brings to
    its rollup and [of_children] for what is said of the counts that the
    calls on the child categories returned: the rollup of series is that
    number plus the rollups of series that these calls returned, and the
    rollup of categories is the number of child categories plus the
    rollups of categories that they returned. *)
Definition rollup_of_node (total_of : pyval -> Z)
    (of_children : list (Z * Z) -> Prop) (R : Runtime) (C : Config)
    (api_key : string) (depth : Z) (categoryDict : pyval) (st : App)
    (num_descendent_categories num_descendent_series : Z) : Prop :=
  exists categoryID categoryName children_series st2 direct st3
         children_categories st4 subdicts results st5,
    py_subscript categoryDict "id" = Ok categoryID /\
    py_subscript categoryDict "name" = Ok categoryName /\
    get_children_series R C api_key categoryID
      (snd (emit (Progress (repeat_str " " (Z.to_nat (4 * depth)) +:+ "[#"
                            +:+ py_str R categoryID +:+ "] "
                            +:+ py_str R categoryName)) st))
      = (Ok children_series, st2) /\
    process_children_series R C children_series categoryID st2 = (Ok direct, st3) /\
    get_child_categories R C api_key categoryID st3 = (Ok children_categories, st4) /\
    listed_categories children_categories = Ok subdicts /\
    child_calls R (process_category R C api_key (depth + 1)) categoryID subdicts
      (match subdicts with
       | [] => st4
       | _ :: _ => snd (inc_categories (Z.of_nat (length subdicts)) st4)
       end) results st5 /\
    of_children results /\
    num_descendent_series
      = total_of children_series + Zsum (snd <$> results) /\
    num_descendent_categories
      = Z.of_nat (length subdicts) + Zsum (fst <$> results).

(** The sentence of C1 for one call: the node brings the total that the
    server reported. *)
Definition rollup_is_reported_total (R : Runtime) (C : Config)
    (api_key : string) (depth : Z) (categoryDict : pyval) (st : App) : Prop :=
  forall ndc nds st',
    process_category R C api_key depth categoryDict st = (Ok (ndc, nds), st') ->
    rollup_of_node reported_total (fun _ => True) R C api_key depth
      categoryDict st ndc nds.

(** What is to say of the calls on the children of a node at the maximum
    depth: each returned (0, 0), so that they add nothing. *)
Definition none_counted (results : list (Z * Z)) : Prop :=
  Forall (fun counts => counts = (0, 0)) results /\
  Zsum (fst <$> results) = 0 /\ Zsum (snd <$> results) = 0.

(** The progress lines of a trace, and the URLs sent to the server. *)
Definition progress_lines (tr : list event) : list string :=
  omap (fun e => match e with Progress text => Some text | _ => None end) tr.
Definition requests (tr : list event) : list string :=
  omap (fun e => match e with Request url => Some url | _ => None end) tr.

End TraversalSpec.

(** ** FRED_API.py: loading the credential *)

Module Startup.
Import FRED_API.

Definition API_KEY_FILE_NAME : string := "api_key.json".

(** The body of the [try] of step 3 of [initialize], lines 125 to 133:
    the text of the file is decoded, the value of ["api_key"] is taken, it
    must be truthy and of length 32, and it is appended to the name of the
    parameter, which only a text allows. [None] stands for an exception,
    of whatever kind: the handler treats them all alike. *)
Definition read_api_key (R : Runtime) (disk : gmap string string)
  : option string :=
  match disk !! API_KEY_FILE_NAME with
  | None => None
  | Some text =>
      match json_loads R text with
      | None => None
      | Some api_key_dict =>
          match py_get api_key_dict "api_key" with
          | Raise _ => None
          | Ok api_key =>
              if negb (truthy api_key) then None
              else match py_len api_key with
                   | Raise _ => None
                   | Ok n =>
                       if negb (n =? 32) then None
                       else match api_key with
                            | PStr s => Some (API_KEY_PARAM_NAME +:+ "=" +:+ s)
                            | _ => None
                            end
                   end
          end
      end
  end.

(** Step 3 of [initialize]: whatever the [try] raises ends the process
    with the exit code -995; otherwise [self.API_KEY_PARAMETER] is set. *)
Definition load_api_key (R : Runtime) (disk : gmap string string)
  : result string :=
  match read_api_key R disk with
  | Some parameter => Ok parameter
  | None => Raise (SystemExit (-995))
  end.

End Startup.

(** ** Statements about longer runs of the cache *)

Module CacheRuns.
Import CacheTool.

Definition is_dict (v : pyval) : bool :=
  match v with
  | PDict _ => true
  | _ => false
  end.

(** A call of one of the two methods that the request layer uses. *)
Inductive call : Type :=
  | Read (now : Z) (key : string)
  | Write (now : Z) (key : string) (data : pyval).

(** The cacher after a series of calls, one after the other. *)
Fixpoint after (R : Runtime) (calls : list call) (c : Cacher) : Cacher :=
  match calls with
  | [] => c
  | Read now key :: rest => after R rest (snd (read_cached_data R now key c))
  | Write now key data :: rest =>
      after R rest (snd (write_cached_data R now key data c))
  end.

(** The number of reads among the calls. *)
Fixpoint reads (calls : list call) : Z :=
  match calls with
  | [] => 0
  | Read _ _ :: rest => 1 + reads rest
  | Write _ _ _ :: rest => reads rest
  end.

(** The four counters together. *)
Definition counted (s : CacheStats) : Z :=
  num_hits s + num_misses s + num_expired s + num_invalid s.

End CacheRuns.

(** ** More samples for the examples *)

Module Samples.
Import FRED_API.

(** A store with one entry, and a runtime whose JSON encoder and decoder
    know this store and nothing else. *)
Definition store1 : pyval :=
  PDict {["https://fred/x" :=
            PDict (<["timestamp" := PStr "utc 0"]> {["data" := PStr "body"]})]}.

Definition json_of_store1 : Runtime :=
  {| py_str := Demo.demo_str;
     json_loads := fun text => if String.eqb text "store1" then Some store1 else None;
     json_dumps := fun _ => "store1";
     fromisoformat := Demo.demo_fromisoformat;
     isoformat := fun t => "utc " +:+ Demo.decimal t;
     strptime_strftime := fun _ _ _ => None;
     utcnow := fun k => Z.of_nat k * 1000000;
     request_accepts := fun _ => true;
     urlopen := fun _ _ => None;
     writable := fun _ => true |}.

Definition cacher1 : CacheTool.Cacher :=
  CacheTool.mkCacher true "cache.json" 24 store1 (CacheTool.mkCacheStats 3 2 1 0).

(** A server whose root category 0 lists a child with the identifier 0
    again. *)
Definition pages_again : list (string * string) :=
  [ (Demo.series_url "0" "5", "no series");
    (Demo.children_url "0", "children of 0") ].
Definition values_again : list (string * pyval) :=
  [ ("children of 0", Demo.categories_page [Demo.category 0 "again"]);
    ("no series", Demo.series_page 0 []) ].

End Samples.

(** ** Statements about whole runs of the application *)

Module RunSpec.
Import treelib FRED_API RequestSpec.

(** The relation [rel] holds between the state before a method and the
    state after it, whether the method returns or raises. *)
Definition Keeps {A} (rel : App -> App -> Prop) (m : M A) : Prop :=
  forall st, rel st (snd (m st)).

(** A node is still there: same identifier, same parent, and a label that
    starts with the label it had. *)
Definition node_kept (old new : Node) : Prop :=
  identifier new = identifier old /\
  predecessor new = predecessor old /\
  String.prefix (tag old) (tag new) = true.

(** The tree has only grown: its nodes are still there, in their order,
    and the new nodes come after them. *)
Definition grows (t t' : Tree) : Prop :=
  exists kept newer, t' = kept ++ newer /\ Forall2 node_kept t kept.

Definition tree_grows (st st' : App) : Prop :=
  grows (fred_data_tree st) (fred_data_tree st').

(** The counters of categories and of series are as they were. *)
Definition same_counts (st st' : App) : Prop :=
  total_categories (stats st') = total_categories (stats st) /\
  total_series (stats st') = total_series (stats st).

(** The trace has been continued by events that all satisfy [P]. *)
Definition adds_events (P : event -> Prop) (st st' : App) : Prop :=
  exists evs, trace st' = trace st ++ evs /\ Forall P evs.

(** What the traversal may do to the cache and to the server: every key
    is the URL of a request path that passed the test for the credential
    parameter, put together without the credential, and every URL sent to
    the server is such a key with the credential appended. *)
Definition traversal_event_ok (C : Config) (api_key : string) (e : event) : Prop :=
  match e with
  | Progress _ => True
  | _ => exists rest_path,
           contains API_KEY_PARAM_NAME (lower rest_path) = false /\
           request_event_ok api_key (full_url C rest_path) e
  end.

(** The numbers of cache reads and of URLs sent among some events. *)
Fixpoint reads_in (evs : list event) : Z :=
  match evs with
  | [] => 0
  | CacheRead _ :: rest => 1 + reads_in rest
  | _ :: rest => reads_in rest
  end.
Fixpoint requests_in (evs : list event) : Z :=
  match evs with
  | [] => 0
  | Request _ :: rest => 1 + requests_in rest
  | _ :: rest => requests_in rest
  end.

(** Between two states: no more URLs were sent than server calls were
    counted, and no more server calls were counted than the cache was
    read. *)
Definition calls_within_reads (st st' : App) : Prop :=
  exists evs,
    trace st' = trace st ++ evs /\
    requests_in evs <= total_server_calls (stats st') - total_server_calls (stats st) /\
    total_server_calls (stats st') - total_server_calls (stats st) <= reads_in evs.

(** The node [nd] hangs below the node [root] in the tree [t]: its parent
    is [root], or a node of [t] that hangs below [root]. *)
Inductive below (root : node_id) (t : Tree) : Node -> Prop :=
  | below_child (nd : Node) :
      predecessor nd = Some root -> below root t nd
  | below_deeper (nd parent : Node) :
      parent ∈ t -> predecessor nd = Some (identifier parent) ->
      below root t parent -> below root t nd.

(** The tree has only grown, and every new node hangs below [root]. *)
Definition adds_below (root : node_id) (st st' : App) : Prop :=
  exists kept newer,
    fred_data_tree st' = kept ++ newer /\
    Forall2 node_kept (fred_data_tree st) kept /\
    Forall (below root (fred_data_tree st')) newer.

(** The tree has a node with the identifier [nid]. *)
Definition has_node (nid : string) (st : App) : Prop :=
  is_Some (get_node (Named nid) (fred_data_tree st)).

(** The exceptions that a traversal can end with: a category or a series
    without the key that is read from it or that is no dict, a response
    that is not shaped as expected, an identifier that the tree already
    has, and the exit of the test for the credential parameter. *)
Definition expected_failure (e : exn) : Prop :=
  e = KeyError \/ e = TypeError \/ e = AttributeError \/
  e = DuplicatedNodeIdError \/ e = SystemExit (-999).

(** From a state where [pre] holds, [m] raises nothing else. *)
Definition fails_only {A} (pre : App -> Prop) (m : M A) : Prop :=
  forall st e, pre st -> fst (m st) = Raise e -> expected_failure e.

(** The application as [__init__] and the steps 4 and 5 of [initialize]
    leave it: counters at zero, the cacher that [CacheTool.initialize]
    returned, and the tree of [initialize_tree]. *)
Definition initialized (R : Runtime) (C : Config) (cacher : CacheTool.Cacher)
  : App :=
  mkApp (mkAppStats 0 0 0) cacher (initialize_tree R C) 0 [].

(** A text without a line break. *)
Definition single_line (s : string) : Prop :=
  Forall (fun c => is_newline c = false) (String.list_ascii_of_string s).

End RunSpec.

(** * Properties *)

(** ** The cache *)

Module CacheProofs.
Import CacheTool CacheSpec.

Lemma disabled_not_enabled (R : Runtime) (c : Cacher) :
  disabled R c -> enabled c = false.
Proof.
  intros [H | (disk & c0 & text & -> & Hfile & Hbad)]; [exact H |].
  unfold load_cache_file.
  destruct (enabled c0) eqn:E; simpl; [| exact E].
  rewrite Hfile, Hbad. reflexivity.
Qed.

Lemma truthy_text (s : string) : truthy (PStr s) = true <-> s <> "".
Proof.
  simpl. destruct (String.eqb_spec s ""); simpl; split; congruence.
Qed.

Lemma read_stats_le (R : Runtime) (now : Z) (key : string) (c : Cacher) :
  stats_le (stats c) (stats (snd (read_cached_data R now key c))).
Proof.
  unfold read_cached_data, stats_le.
  destruct (enabled c); simpl; [| lia].
  destruct (py_get (cache_dict c) key) as [entry |]; [| simpl; lia].
  destruct (py_get entry "timestamp") as [ts |];
    [| destruct entry; simpl; lia].
  destruct (truthy ts);
    [destruct (timestamp_fresh R now (cache_expiration_hours c) ts) as [[] |] |];
    destruct entry; simpl; lia.
Qed.

(** What a read does on an enabled cache whose store is a mapping of
    objects, case by case. *)
Lemma read_enabled (R : Runtime) (now : Z) (key : string) (c : Cacher)
    (d : gmap string pyval) :
  enabled c = true -> cache_dict c = PDict d -> well_formed_store d ->
  read_cached_data R now key c =
    match d !! key with
    | Some (PDict entry) =>
        let ts := default PNone (entry !! "timestamp") in
        if truthy ts then
          match timestamp_fresh R now (cache_expiration_hours c) ts with
          | Some true => (Ok (default PNone (entry !! "data")), count hit c)
          | Some false => (Ok PNone, count expired c)
          | None => (Ok PNone, count invalid c)
          end
        else (Ok PNone, count invalid c)
    | _ => (Ok PNone, count miss c)
    end.
Proof.
  intros He Hd Hwf. unfold read_cached_data. rewrite He, Hd. simpl.
  destruct (d !! key) as [e |] eqn:Hk; simpl; [| reflexivity].
  destruct (Hwf _ _ Hk) as [-> | [entry ->]]; reflexivity.
Qed.

Lemma fresh_inv (R : Runtime) (now ttl : Z) (ts : pyval) (b : bool) :
  timestamp_fresh R now ttl ts = Some b ->
  exists s t, ts = PStr s /\ fromisoformat R s = Some (Aware t) /\
              b = (now - t <? hours_us ttl).
Proof.
  destruct ts as [| | | s | |]; simpl; try discriminate.
  destruct (fromisoformat R s) as [[t | w] |] eqn:E; try discriminate.
  intros [= <-]. exists s, t. auto.
Qed.

(** C9: a cache that is disabled, by its configuration or by a cache file
    that failed to load, answers every read with [None] and ignores every
    write and every save: the cacher, its store and the file stay as they
    were. *)
Theorem disabled_cache_is_inert (R : Runtime) (c : Cacher) :
  disabled R c ->
  (forall now key, read_cached_data R now key c = (Ok PNone, c)) /\
  (forall now key data, write_cached_data R now key data c = (Ok tt, c)) /\
  (forall disk : Disk, save_cache_file R disk c = disk).
Proof.
  intros H. apply disabled_not_enabled in H.
  unfold read_cached_data, write_cached_data, save_cache_file.
  rewrite H. simpl. repeat split.
Qed.

Lemma disabled_cache_is_inert_witness :
  let R := Demo.runtime [] [] in
  let c := load_cache_file R {["cache.json" := "not json"]} (Demo.empty_cacher true) in
  disabled R c /\
  read_cached_data R 0 "X" c = (Ok PNone, c) /\
  write_cached_data R 0 "X" (PStr "body") c = (Ok tt, c) /\
  save_cache_file R {["cache.json" := "not json"]} c = {["cache.json" := "not json"]}.
Proof.
  intros R c.
  assert (H : disabled R c).
  { right. exists {["cache.json" := "not json"]}, (Demo.empty_cacher true), "not json".
    repeat split. }
  split; [exact H |].
  destruct (disabled_cache_is_inert R c H) as (Hr & Hw & Hs).
  split; [apply Hr | split; [apply Hw | apply Hs]].
Defined.

(** How a read on an enabled cache is counted: the verdict, what decides
    it, and what the read returns. *)
Lemma read_verdict (R : Runtime) (now : Z) (key : string) (c : Cacher)
    (d : gmap string pyval) :
  enabled c = true -> cache_dict c = PDict d -> well_formed_store d ->
  exists v,
    snd (read_cached_data R now key c) = count (bump v) c /\
    (v = Miss <-> d !! key = None \/ d !! key = Some PNone) /\
    (v = Hit <-> exists entry t, stamped R d key entry t /\
                   now - t < hours_us (cache_expiration_hours c)) /\
    (v = Expired <-> exists entry t, stamped R d key entry t /\
                       hours_us (cache_expiration_hours c) <= now - t) /\
    (v <> Hit -> fst (read_cached_data R now key c) = Ok PNone).
Proof.
  intros He Hd Hwf. rewrite (read_enabled R now key c d He Hd Hwf).
  assert (Hst : forall entry t, stamped R d key entry t ->
            exists s, d !! key = Some (PDict entry) /\
              entry !! "timestamp" = Some (PStr s) /\ truthy (PStr s) = true /\
              fromisoformat R s = Some (Aware t)).
  { intros entry t (s & H1 & H2 & H3 & H4). exists s.
    repeat split; try assumption. apply truthy_text, H3. }
  destruct (d !! key) as [e |] eqn:Hk.
  2:{ exists Miss. simpl. repeat split; try discriminate; eauto;
      intros (entry & t & Hs & _); apply Hst in Hs as (s & ? & _); discriminate. }
  destruct (Hwf _ _ Hk) as [-> | [entry ->]].
  { exists Miss. simpl. repeat split; try discriminate; eauto;
      intros (entry & t & Hs & _); apply Hst in Hs as (s & ? & _); discriminate. }
  simpl.
  destruct (truthy (default PNone (entry !! "timestamp"))) eqn:Htr.
  - destruct (timestamp_fresh R now (cache_expiration_hours c)
                (default PNone (entry !! "timestamp"))) as [b |] eqn:Hf.
    + apply fresh_inv in Hf as (s & t & Hts & Hiso & ->).
      assert (Hlook : entry !! "timestamp" = Some (PStr s)).
      { destruct (entry !! "timestamp"); simpl in Hts; congruence. }
      assert (Hstamp : stamped R d key entry t).
      { exists s. repeat split; try assumption.
        apply truthy_text. rewrite Hlook in Htr. exact Htr. }
      assert (Huniq : forall entry' t', stamped R d key entry' t' -> t' = t).
      { intros entry' t' Hs. apply Hst in Hs as (s' & H1 & H2 & _ & H4).
        injection H1 as <-. congruence. }
      destruct (Z.ltb_spec (now - t) (hours_us (cache_expiration_hours c))).
      * exists Hit. simpl. repeat split; try discriminate; try congruence; eauto.
        -- intros [H0 | H0]; discriminate.
        -- intros (entry' & t' & Hs & Hle). apply Huniq in Hs as ->. lia.
      * exists Expired. simpl. repeat split; try discriminate; eauto.
        -- intros [H0 | H0]; discriminate.
        -- intros (entry' & t' & Hs & Hlt). apply Huniq in Hs as ->. lia.
    + exists Invalid. simpl. repeat split; try discriminate.
      * intros [H | H]; discriminate.
      * intros (entry' & t & Hs & _). apply Hst in Hs as (s & H1 & H2 & _ & H4).
        injection H1 as <-. rewrite H2 in Hf. simpl in Hf. rewrite H4 in Hf.
        discriminate.
      * intros (entry' & t & Hs & _). apply Hst in Hs as (s & H1 & H2 & _ & H4).
        injection H1 as <-. rewrite H2 in Hf. simpl in Hf. rewrite H4 in Hf.
        discriminate.
  - exists Invalid. simpl. repeat split; try discriminate.
    + intros [H | H]; discriminate.
    + intros (entry' & t & Hs & _). apply Hst in Hs as (s & H1 & H2 & H3 & _).
      injection H1 as <-. rewrite H2 in Htr. simpl in Htr, H3. congruence.
    + intros (entry' & t & Hs & _). apply Hst in Hs as (s & H1 & H2 & H3 & _).
      injection H1 as <-. rewrite H2 in Htr. simpl in Htr, H3. congruence.
Qed.






End CacheProofs.

(** ** The request layer *)

Module RequestProofs.
Import FRED_API RequestSpec.

(** Unfolds the methods of the request layer down to the state. *)
Ltac run :=
  unfold make_caching_request, make_api_request, read_cached_data,
    write_cached_data, sleep, inc_server_calls, on_stats, on_cacher, emit,
    tick, bind, ret, raise, lift; simpl.

(** A read that brings nothing usable is followed by a call to the server
    and by a write of what the call returned. *)
Lemma caching_request_refetch (R : Runtime) (C : Config) (api_key url : string)
    (st : App) (data : pyval) (c1 : CacheTool.Cacher) :
  CacheTool.read_cached_data R (utcnow R (steps st)) url (APICacher st)
    = (Ok data, c1) ->
  truthy data = false ->
  0 <= THROTTLE C ->
  request_accepts R (url_with_key api_key url) = true ->
  make_caching_request R C api_key url st =
    let resp := response R (S (steps st)) (url_with_key api_key url) in
    let wr := CacheTool.write_cached_data R (utcnow R (S (S (steps st)))) url resp c1 in
    (match fst wr with Ok _ => Ok resp | Raise e => Raise e end,
     after_refetch R api_key url st (snd wr)).
Proof.
  intros Hread Hfalsy Hthr Hacc. run. rewrite Hread. simpl. rewrite Hfalsy. simpl.
  destruct (Z.ltb_spec (THROTTLE C) 0); [lia |]. simpl.
  unfold url_with_key in Hacc. rewrite Hacc. simpl.
  unfold response, after_refetch, url_with_key.
  destruct (urlopen R (S (steps st)) _) eqn:E; simpl;
    destruct (CacheTool.write_cached_data R _ url _ c1) as [[] ?]; simpl;
    unfold response; rewrite E, <- !app_assoc; reflexivity.
Qed.

(** A read that brings a usable value ends the request. *)
Lemma caching_request_served (R : Runtime) (C : Config) (api_key url : string)
    (st : App) (data : pyval) (c1 : CacheTool.Cacher) :
  CacheTool.read_cached_data R (utcnow R (steps st)) url (APICacher st)
    = (Ok data, c1) ->
  truthy data = true ->
  make_caching_request R C api_key url st =
    (Ok data, mkApp (stats st) c1 (fred_data_tree st) (S (steps st))
                    (trace st ++ [CacheRead url])).
Proof.
  intros Hread Htruthy. run. rewrite Hread. simpl. rewrite Htruthy. reflexivity.
Qed.

Lemma read_keeps_store (R : Runtime) (now : Z) (key : string)
    (c : CacheTool.Cacher) :
  let c' := snd (CacheTool.read_cached_data R now key c) in
  CacheTool.enabled c' = CacheTool.enabled c /\
  CacheTool.cache_dict c' = CacheTool.cache_dict c.
Proof.
  unfold CacheTool.read_cached_data.
  destruct (CacheTool.enabled c) eqn:He; simpl; [| auto].
  destruct (py_get (CacheTool.cache_dict c) key) as [entry |]; [| simpl; auto].
  destruct (py_get entry "timestamp") as [ts |];
    [| destruct entry; simpl; auto].
  destruct (truthy ts);
    [destruct (CacheTool.timestamp_fresh R now _ ts) as [[] |] |];
    destruct entry; simpl; auto.
Qed.

Lemma write_enabled (R : Runtime) (now : Z) (key : string) (data : pyval)
    (c : CacheTool.Cacher) (d : gmap string pyval) :
  CacheTool.enabled c = true -> CacheTool.cache_dict c = PDict d ->
  CacheTool.write_cached_data R now key data c =
    (Ok tt, CacheTool.set_cache_dict
              (PDict (<[key := CacheTool.new_entry R now data]> d)) c).
Proof.
  intros He Hd. unfold CacheTool.write_cached_data. rewrite He, Hd. reflexivity.
Qed.

Lemma write_changes_one_entry (R : Runtime) (now : Z) (key : string)
    (data : pyval) (c : CacheTool.Cacher) :
  same_but_at key (CacheTool.cache_dict c)
    (CacheTool.cache_dict (snd (CacheTool.write_cached_data R now key data c))).
Proof.
  unfold CacheTool.write_cached_data.
  destruct (CacheTool.enabled c); simpl; [| left; reflexivity].
  destruct (CacheTool.cache_dict c) as [| | | | | d] eqn:Hd; simpl;
    try (left; congruence).
  right. eauto.
Qed.

(** A read of an entry whose timestamp is less than the TTL old is a hit
    and returns the data of the entry. *)
Lemma read_hit (R : Runtime) (now : Z) (key : string) (c : CacheTool.Cacher)
    (d entry : gmap string pyval) (t : Z) :
  CacheTool.enabled c = true -> CacheTool.cache_dict c = PDict d ->
  CacheSpec.stamped R d key entry t ->
  now - t < CacheTool.hours_us (CacheTool.cache_expiration_hours c) ->
  CacheTool.read_cached_data R now key c =
    (Ok (default PNone (entry !! "data")), CacheTool.count CacheTool.hit c).
Proof.
  intros He Hd (s & Hk & Hts & Hne & Hiso) Hlt.
  unfold CacheTool.read_cached_data. rewrite He, Hd. simpl. rewrite Hk. simpl.
  rewrite Hts. simpl.
  destruct (String.eqb_spec s ""); [contradiction |]. simpl. rewrite Hiso.
  destruct (Z.ltb_spec (now - t)
              (CacheTool.hours_us (CacheTool.cache_expiration_hours c))); [| lia].
  reflexivity.
Qed.






Ltac events_ok :=
  repeat first
    [ apply List.Forall_nil
    | apply List.Forall_cons; simpl;
      [ first [ reflexivity
              | split; [reflexivity
                       | first [left; reflexivity | right; eexists; reflexivity]] ]
      | ] ].

(** Whatever happens in it, one [make_caching_request] hands the cache no
    key but the URL it was given and sends the server nothing but that URL
    with the credential appended. *)
Lemma caching_request_contract (R : Runtime) (C : Config) (api_key url : string)
    (st : App) :
  let st' := snd (make_caching_request R C api_key url st) in
  exists evs,
    trace st' = trace st ++ evs /\
    Forall (request_event_ok api_key url) evs /\
    same_but_at url (CacheTool.cache_dict (APICacher st))
                    (CacheTool.cache_dict (APICacher st')).
Proof.
  run.
  destruct (read_keeps_store R (utcnow R (steps st)) url (APICacher st)) as [_ Hd].
  destruct (CacheTool.read_cached_data R (utcnow R (steps st)) url (APICacher st))
    as [[data | e] c1]; simpl in Hd; simpl.
  2:{ exists [CacheRead url]. repeat split.
      - repeat constructor.
      - left. congruence. }
  destruct (truthy data); simpl.
  { exists [CacheRead url]. repeat split.
    - repeat constructor.
    - left. congruence. }
  destruct (THROTTLE C <? 0); simpl.
  { exists [CacheRead url]. repeat split.
    - repeat constructor.
    - left. congruence. }
  destruct (request_accepts R _); simpl.
  2:{ exists [CacheRead url]. repeat split.
      - repeat constructor.
      - left. congruence. }
  set (sent := url +:+ "&" +:+ API_KEY_PARAMETER api_key).
  assert (Hw : forall resp,
            same_but_at url (CacheTool.cache_dict (APICacher st))
              (CacheTool.cache_dict
                 (snd (CacheTool.write_cached_data R
                         (utcnow R (S (S (steps st)))) url resp c1)))).
  { intros resp. rewrite <- Hd. apply write_changes_one_entry. }
  destruct (urlopen R (S (steps st)) sent) as [text |]; simpl.
  - specialize (Hw (PStr text)).
    destruct (CacheTool.write_cached_data R _ url (PStr text) c1) as [[[] | e] c2];
      simpl in *;
      exists [CacheRead url; Request sent; CacheWrite url (PStr text)];
      (split; [rewrite <- !app_assoc; reflexivity |]);
      (split; [| exact Hw]);
      events_ok.
  - specialize (Hw PNone).
    destruct (CacheTool.write_cached_data R _ url PNone c1) as [[[] | e] c2];
      simpl in *;
      exists [CacheRead url; Request sent; CacheWrite url PNone];
      (split; [rewrite <- !app_assoc; reflexivity |]);
      (split; [| exact Hw]);
      events_ok.
Qed.

(** [get_rest_data] on a path that passes the test for the credential:
    every failure ends in the empty dict. *)
Lemma get_rest_data_unguarded (R : Runtime) (C : Config)
    (api_key rest_path : string) (st : App) :
  contains API_KEY_PARAM_NAME (lower rest_path) = false ->
  get_rest_data R C api_key rest_path st =
    match make_caching_request R C api_key (full_url C rest_path) st with
    | (Ok data, st1) =>
        match loads R data with
        | Ok v => (Ok v, st1)
        | Raise _ => (Ok (PDict ∅), st1)
        end
    | (Raise _, st1) => (Ok (PDict ∅), st1)
    end.
Proof.
  intros Hg. unfold get_rest_data. rewrite Hg.
  unfold try_except, bind, lift, ret.
  destruct (make_caching_request R C api_key (full_url C rest_path) st)
    as [[data | e] st1]; [| reflexivity].
  destruct (loads R data); reflexivity.
Qed.

Lemma get_rest_data_state (R : Runtime) (C : Config)
    (api_key rest_path : string) (st : App) :
  contains API_KEY_PARAM_NAME (lower rest_path) = false ->
  (exists v, fst (get_rest_data R C api_key rest_path st) = Ok v) /\
  snd (get_rest_data R C api_key rest_path st)
    = snd (make_caching_request R C api_key (full_url C rest_path) st).
Proof.
  intros Hg. rewrite (get_rest_data_unguarded R C api_key rest_path st Hg).
  destruct (make_caching_request R C api_key (full_url C rest_path) st)
    as [[data | e] st1]; simpl; [| eauto].
  destruct (loads R data); simpl; eauto.
Qed.




End RequestProofs.

(** ** The traversal *)

Module TraversalProofs.
Import treelib FRED_API RequestSpec RequestProofs.

(** An empty response has no series to show and none to count. *)
Lemma no_series_in_empty_response (R : Runtime) (C : Config)
    (categoryID : pyval) (st : App) :
  process_children_series R C (PDict ∅) categoryID st = (Ok (0, 0), st).
Proof. reflexivity. Qed.

(** The sentence of C5 fails for a category whose identifier spells the
    name of the credential parameter: the request for its children ends
    the process. *)
Lemma request_for_suspect_identifier_exits :
  ~ requests_never_raise Demo.offline (Demo.config 1 5) Demo.key
      (PStr "api_key") (Demo.start Demo.offline (Demo.config 1 5) true).
Proof.
  intros [_ (v & st' & H)]. vm_compute in H. discriminate.
Qed.

(** C5, as the code has it: for a category whose two request paths pass
    the test for the credential parameter, neither the request for the
    child series nor the one for the child categories raises. When getting
    the response raises or the response does not decode (which is what
    happens to the [None] of a failed call and to a text that is not JSON),
    the request returns the empty dict. An empty dict for the series gives
    the counts (0, 0) and leaves the state alone; an empty dict for the
    child categories gives no child category and leaves the series counts
    of the node as they are; with both empty the node returns (0, 0), so
    that the loop over its siblings goes on. *)
Theorem requests_fall_back_to_empty (R : Runtime) (C : Config) (api_key : string)
    (categoryID : pyval) :
  contains API_KEY_PARAM_NAME (lower (children_series_url R C categoryID)) = false ->
  contains API_KEY_PARAM_NAME (lower (child_categories_url R categoryID)) = false ->
  (forall st, requests_never_raise R C api_key categoryID st) /\
  (forall st, request_failed R C api_key (children_series_url R C categoryID) st ->
     fst (get_children_series R C api_key categoryID st) = Ok (PDict ∅)) /\
  (forall st, request_failed R C api_key (child_categories_url R categoryID) st ->
     fst (get_child_categories R C api_key categoryID st) = Ok (PDict ∅)) /\
  (forall data, data = PNone \/ (exists text, data = PStr text /\ json_loads R text = None) ->
     exists e, loads R data = Raise e) /\
  (forall st, process_children_series R C (PDict ∅) categoryID st = (Ok (0, 0), st)) /\
  (forall recurse num_series num_descendent_series st st1,
     get_child_categories R C api_key categoryID st = (Ok (PDict ∅), st1) ->
     process_child_categories R C api_key recurse categoryID
       num_series num_descendent_series st
     = (when ((0 <? num_series) || (0 <? num_descendent_series))%bool
          (append_to_tag (py_str R categoryID)
             (", contains " +:+ py_str R (PInt num_series) +:+ "/"
              +:+ py_str R (PInt num_descendent_series) +:+ " series")) ;;;
        ret (0, num_descendent_series)) st1) /\
  (forall recurse depth categoryDict categoryName st st1 st2,
     py_subscript categoryDict "id" = Ok categoryID ->
     py_subscript categoryDict "name" = Ok categoryName ->
     get_children_series R C api_key categoryID
       (snd (emit (Progress (repeat_str " " (Z.to_nat (4 * depth)) +:+ "[#"
                             +:+ py_str R categoryID +:+ "] "
                             +:+ py_str R categoryName)) st))
       = (Ok (PDict ∅), st1) ->
     get_child_categories R C api_key categoryID st1 = (Ok (PDict ∅), st2) ->
     process_category_body R C api_key recurse depth categoryDict st
       = (Ok (0, 0), st2)).
Proof.
  intros Hgs Hgc.
  split; [| split; [| split; [| split; [| split; [| split]]]]].
  - intros st. split.
    + unfold get_children_series.
      destruct (get_rest_data_state R C api_key _ st Hgs) as [[v Hv] _].
      destruct (get_rest_data R C api_key (children_series_url R C categoryID) st)
        as [r st']. simpl in Hv. subst r. eauto.
    + unfold get_child_categories.
      destruct (get_rest_data_state R C api_key _ st Hgc) as [[v Hv] _].
      destruct (get_rest_data R C api_key (child_categories_url R categoryID) st)
        as [r st']. simpl in Hv. subst r. eauto.
  - intros st Hf. unfold get_children_series.
    rewrite (get_rest_data_unguarded R C api_key _ st Hgs).
    unfold request_failed in Hf.
    destruct (make_caching_request R C api_key _ st) as [[data | e] st1];
      [| reflexivity].
    destruct Hf as [e ->]. reflexivity.
  - intros st Hf. unfold get_child_categories.
    rewrite (get_rest_data_unguarded R C api_key _ st Hgc).
    unfold request_failed in Hf.
    destruct (make_caching_request R C api_key _ st) as [[data | e] st1];
      [| reflexivity].
    destruct Hf as [e ->]. reflexivity.
  - intros data [-> | (text & -> & Hbad)]; simpl.
    + eauto.
    + rewrite Hbad. eauto.
  - intros st. reflexivity.
  - intros recurse ns nds st st1 Hget.
    unfold process_child_categories, bind at 1. rewrite Hget. reflexivity.
  - intros recurse depth categoryDict categoryName st st1 st2 Hid Hname Hs Hc.
    unfold process_category_body, bind, lift. rewrite Hid, Hname.
    simpl in Hs |- *. rewrite Hs.
    rewrite no_series_in_empty_response. simpl.
    unfold process_child_categories, bind. rewrite Hc. reflexivity.
Qed.

Lemma requests_fall_back_to_empty_witness :
  let R := Demo.offline in
  let C := Demo.config 1 5 in
  let st := Demo.start R C true in
  requests_never_raise R C Demo.key (PInt 0) st /\
  fst (get_children_series R C Demo.key (PInt 0) st) = Ok (PDict ∅).
Proof.
  intros R C st.
  destruct (requests_fall_back_to_empty R C Demo.key (PInt 0) eq_refl eq_refl)
    as (Hnever & Hseries & _).
  split; [apply Hnever |]. apply Hseries.
  vm_compute. eauto.
Defined.

Import TraversalSpec.

(** *** Reading a successful run backwards *)

Lemma bind_ok {A B} (m : M A) (f : A -> M B) (st st' : App) (b : B) :
  bind m f st = (Ok b, st') ->
  exists a st1, m st = (Ok a, st1) /\ f a st1 = (Ok b, st').
Proof.
  unfold bind. destruct (m st) as [[a | e] st1]; [eauto | discriminate].
Qed.

Lemma lift_ok {A} (r : result A) (st st' : App) (a : A) :
  lift r st = (Ok a, st') -> r = Ok a /\ st' = st.
Proof. unfold lift. intros [= -> ->]. auto. Qed.

Lemma ret_ok {A} (x a : A) (st st' : App) :
  ret x st = (Ok a, st') -> a = x /\ st' = st.
Proof. unfold ret. intros [= -> ->]. auto. Qed.

Lemma create_node_ok (tag : string) (identifier : option string) (parent : string)
    (t t' : Tree) :
  create_node tag identifier (Some parent) t = (Ok tt, t') ->
  t' = t ++ [mkNode (match identifier with
                     | Some s => Named s
                     | None => Auto (length t)
                     end) tag (Some (Named parent))].
Proof.
  unfold create_node.
  destruct (bool_decide _); [discriminate |].
  destruct (bool_decide _); [| discriminate].
  intros [= <-]. reflexivity.
Qed.

Lemma on_tree_create_ok (tag : string) (identifier : option string)
    (parent : string) (st st' : App) :
  on_tree (create_node tag identifier (Some parent)) st = (Ok tt, st') ->
  fred_data_tree st'
    = fred_data_tree st
      ++ [mkNode (match identifier with
                  | Some s => Named s
                  | None => Auto (length (fred_data_tree st))
                  end) tag (Some (Named parent))].
Proof.
  unfold on_tree.
  destruct (create_node tag identifier (Some parent) (fred_data_tree st))
    as [[[] | e] t'] eqn:Hc; [| discriminate].
  intros [= <-]. simpl. apply create_node_ok in Hc. exact Hc.
Qed.

Ltac backwards H :=
  repeat first
    [ apply bind_ok in H as (? & ? & ? & H); cbv beta in H
    | match goal with
      | H1 : lift _ _ = (Ok _, _) |- _ => apply lift_ok in H1 as [? ?]; subst
      | H1 : ret _ _ = (Ok _, _) |- _ => apply ret_ok in H1 as [? ?]; subst
      end ].

(** A node that is created only under a condition, from a label that may
    fail, under the node [parent]. *)
Lemma optional_node (b : bool) (label : result string) (parent : string)
    (st st' : App) (u : unit) :
  when b (text <- lift label ;;
          on_tree (create_node text None (Some parent))) st = (Ok u, st') ->
  exists extra,
    fred_data_tree st' = fred_data_tree st ++ extra /\
    Forall (fun nd => (exists k, identifier nd = Auto k) /\
                      predecessor nd = Some (Named parent)) extra.
Proof.
  unfold when. destruct b; intros H.
  - backwards H. destruct u. apply on_tree_create_ok in H.
    eexists [_]. split; [exact H |].
    apply List.Forall_cons; [| apply List.Forall_nil]. simpl. eauto.
  - apply ret_ok in H as [_ ->]. exists []. split.
    + rewrite app_nil_r. reflexivity.
    + apply List.Forall_nil.
Qed.

(** A series that is processed without an exception adds its group of
    nodes at the end of the tree. *)
Lemma process_series_adds_group (R : Runtime) (series categoryID : pyval)
    (st st' : App) :
  process_series R series categoryID st = (Ok tt, st') ->
  exists group,
    series_group R categoryID group /\
    fred_data_tree st' = fred_data_tree st ++ group.
Proof.
  intros H. unfold process_series in H. backwards H.
  destruct x3. apply on_tree_create_ok in H2.
  apply optional_node in H4 as (notes_node & Hn & Hfn).
  apply optional_node in H as (attributes_node & Ha & Hfa).
  match type of H2 with
  | _ = _ ++ [?header] => exists (header :: notes_node ++ attributes_node)
  end.
  split.
  - eexists _, _, _. split; [reflexivity |]. simpl.
    split; [reflexivity |]. split; [reflexivity |].
    apply Forall_app. split; assumption.
  - rewrite Ha, Hn, H2. rewrite <- !app_assoc. reflexivity.
Qed.

(** The loop over the series that are shown adds one group per item and
    takes one off [num_remaining] per item. *)
Lemma for_series_groups (R : Runtime) (categoryID : pyval) (items : list pyval) :
  forall (num_remaining : Z) (st st' : App) (r : Z),
    for_series R items categoryID num_remaining st = (Ok r, st') ->
    exists groups,
      fred_data_tree st' = fred_data_tree st ++ concat groups /\
      length groups = length items /\
      Forall (series_group R categoryID) groups /\
      r = num_remaining - Z.of_nat (length items).
Proof.
  induction items as [| series rest IH]; intros n st st' r H; simpl in H.
  - apply ret_ok in H as [-> ->]. exists []. simpl.
    rewrite app_nil_r. repeat split; [apply List.Forall_nil | lia].
  - backwards H. destruct x.
    apply process_series_adds_group in H0 as (group & Hg & Ht).
    apply IH in H as (groups & Hts & Hlen & Hall & ->).
    exists (group :: groups). simpl. repeat split.
    + rewrite Hts, Ht, <- app_assoc. reflexivity.
    + congruence.
    + apply List.Forall_cons; assumption.
    + lia.
Qed.

Lemma slice_to_length {A} (n : Z) (l : list A) :
  0 <= n -> Z.of_nat (length (slice_to n l)) = Z.min (Z.of_nat (length l)) n.
Proof.
  intros Hn. unfold slice_to.
  destruct (Z.leb_spec 0 n); [| lia].
  rewrite length_take. lia.
Qed.

(** C7: for a category whose series response carries a total (a count
    that line 354 takes as true, that is, an integer other than zero) and
    a list of items that is not empty, and with a display cap that is not
    negative, a run of [process_children_series] that ends without an
    exception adds to the tree one group of nodes per shown series, as
    many as the smaller of the number of items and the cap, and then one
    node "plus N additional series..." exactly when N, the total minus the
    number shown, is positive. The counts it returns are the total. *)
Theorem shown_series_and_remainder (R : Runtime) (C : Config)
    (children_series : gmap string pyval) (categoryID : pyval)
    (total : Z) (items : list pyval) (st st' : App) (counts : Z * Z) :
  children_series !! "count" = Some (PInt total) ->
  total <> 0 ->
  children_series !! "seriess" = Some (PList items) ->
  items <> [] ->
  0 <= LIMIT_SERIES C ->
  process_children_series R C (PDict children_series) categoryID st
    = (Ok counts, st') ->
  let shown := Z.min (Z.of_nat (length items)) (LIMIT_SERIES C) in
  exists groups,
    Z.of_nat (length groups) = shown /\
    Forall (series_group R categoryID) groups /\
    fred_data_tree st'
      = fred_data_tree st ++ concat groups
        ++ (if 0 <? total - shown
            then [additional_series_node R categoryID
                    (length (fred_data_tree st ++ concat groups))
                    (total - shown)]
            else []) /\
    counts = (total, total).
Proof.
  intros Hcount Hpos Hitems Hne Hcap H shown.
  unfold process_children_series in H.
  apply bind_ok in H as (num_series & st1 & Hn & H).
  apply lift_ok in Hn as [Hn ->]. simpl in Hn. rewrite Hcount in Hn.
  injection Hn as <-.
  apply bind_ok in H as (seriess & st1 & Hs & H).
  apply lift_ok in Hs as [Hs ->]. simpl in Hs. rewrite Hitems in Hs.
  injection Hs as <-.
  assert (Htruthy : (truthy (PInt total) && truthy (PList items))%bool = true).
  { simpl. destruct (Z.eqb_spec total 0); [lia |].
    destruct items; [contradiction | reflexivity]. }
  rewrite Htruthy in H.
  backwards H. simpl in H0. injection H0 as <-.
  simpl in H2. injection H2 as <-.
  apply for_series_groups in H3 as (groups & Htree & Hlen & Hall & ->).
  assert (Hshown : Z.of_nat (length groups) = shown).
  { rewrite Hlen. apply slice_to_length. exact Hcap. }
  exists groups. split; [exact Hshown |]. split; [exact Hall |].
  rewrite <- Hlen, Hshown in H4.
  unfold inc_series, on_stats in H1. injection H1 as _ <-. simpl in Htree.
  unfold when in H4. destruct (0 <? total - shown).
  - destruct x7. apply on_tree_create_ok in H4.
    rewrite H4, Htree, <- app_assoc. split; reflexivity.
  - apply ret_ok in H4 as [_ ->]. rewrite Htree, app_nil_r.
    split; reflexivity.
Qed.

Lemma shown_series_and_remainder_witness :
  let R := Demo.offline in
  let C := Demo.config 1 100 in
  let st := Demo.start R C true in
  let run := process_children_series R C (PDict Demo.page500) (PInt 0) st in
  exists groups,
    Z.of_nat (length groups) = 100 /\
    Forall (series_group R (PInt 0)) groups /\
    fred_data_tree (snd run)
      = fred_data_tree st ++ concat groups
        ++ [additional_series_node R (PInt 0)
              (length (fred_data_tree st ++ concat groups)) 400] /\
    fst run = Ok (500, 500).
Proof.
  intros R C st run.
  assert (Hne : Demo.hundred <> []) by (unfold Demo.hundred; simpl; discriminate).
  assert (Hcap : 0 <= LIMIT_SERIES C) by (vm_compute; discriminate).
  assert (Hrun : process_children_series R C (PDict Demo.page500) (PInt 0) st
                 = (Ok (500, 500), snd run)) by (vm_compute; reflexivity).
  assert (Htotal : 500 <> 0) by discriminate.
  destruct (shown_series_and_remainder R C Demo.page500 (PInt 0) 500
              Demo.hundred st (snd run) (500, 500)
              eq_refl Htotal eq_refl Hne Hcap Hrun)
    as (groups & Hlen & Hall & Htree & _).
  exists groups. split; [exact Hlen |]. split; [exact Hall |].
  split; [exact Htree |]. vm_compute. reflexivity.
Defined.

(** *** The recursion *)

(** The depth test of [process_category], line 375, and the recursive
    call at [depth + 1], line 401. *)
Lemma process_category_eq (R : Runtime) (C : Config) (api_key : string)
    (depth : Z) (categoryDict : pyval) :
  process_category R C api_key depth categoryDict =
    if LIMIT_DEPTH C <? depth then ret (0, 0)
    else process_category_body R C api_key
           (process_category R C api_key (depth + 1)) depth categoryDict.
Proof.
  unfold process_category.
  destruct (Z.ltb_spec (LIMIT_DEPTH C) depth) as [Hgt | Hle].
  - replace (Z.to_nat (LIMIT_DEPTH C - depth + 1)) with 0%nat by lia.
    reflexivity.
  - replace (Z.to_nat (LIMIT_DEPTH C - depth + 1))
      with (S (Z.to_nat (LIMIT_DEPTH C - (depth + 1) + 1))) by lia.
    reflexivity.
Qed.

Lemma for_categories_calls (R : Runtime) (recurse : pyval -> M (Z * Z))
    (categoryID : pyval) (subdicts : list pyval) :
  forall (totals : Z * Z) (st st' : App) (r : Z * Z),
    for_categories R recurse categoryID subdicts totals st = (Ok r, st') ->
    exists results,
      child_calls R recurse categoryID subdicts st results st' /\
      r = (fst totals + Zsum (fst <$> results),
           snd totals + Zsum (snd <$> results)).
Proof.
  induction subdicts as [| subdict rest IH]; intros totals st st' r H; simpl in H.
  - apply ret_ok in H as [-> ->]. exists []. split; [constructor |].
    simpl. destruct totals. simpl. f_equal; lia.
  - backwards H. destruct x3.
    apply IH in H as (results & Hcalls & ->). simpl.
    exists (x5 :: results). split.
    + econstructor; eassumption.
    + unfold Zsum. simpl. rewrite !Z.add_assoc. reflexivity.
Qed.

Lemma children_series_counts (R : Runtime) (C : Config)
    (children_series categoryID : pyval) (st st' : App) (direct : Z * Z) :
  process_children_series R C children_series categoryID st = (Ok direct, st') ->
  direct = (counted_total children_series, counted_total children_series).
Proof.
  intros H. unfold process_children_series in H.
  apply bind_ok in H as (num_series & st1 & Hn & H).
  apply lift_ok in Hn as [Hn ->].
  apply bind_ok in H as (seriess & st1 & Hs & H).
  apply lift_ok in Hs as [Hs ->].
  unfold counted_total, has_series, reported_total. rewrite Hn, Hs.
  destruct (truthy num_series && truthy seriess)%bool.
  - backwards H. rewrite H0. reflexivity.
  - apply ret_ok in H as [-> _]. reflexivity.
Qed.

Lemma chars_length (s : string) : length (chars s) = String.length s.
Proof.
  unfold chars. rewrite length_fmap.
  induction s as [| c t IH]; simpl; congruence.
Qed.

Lemma len_of_iter (v : pyval) (n : Z) (items : list pyval) :
  py_len v = Ok n -> py_iter v = Ok items -> n = Z.of_nat (length items).
Proof.
  destruct v as [| | | s | l | d]; simpl; try discriminate;
    intros [= <-] [= <-].
  - rewrite chars_length. reflexivity.
  - reflexivity.
  - rewrite !length_fmap, length_map_to_list. reflexivity.
Qed.

Lemma truthy_len (v : pyval) (n : Z) :
  truthy v = true -> py_len v = Ok n -> 0 < n.
Proof.
  destruct v as [| | | s | l | d]; simpl; try discriminate; intros Ht [= <-].
  - destruct s; [discriminate | simpl; lia].
  - destruct l; [discriminate | simpl; lia].
  - destruct (size d); [discriminate | lia].
Qed.

(** One call of [process_category] on a node within the depth limit. *)
Lemma visited_node_rollup (R : Runtime) (C : Config) (api_key : string)
    (depth : Z) (categoryDict : pyval) (st st' : App) (ndc nds : Z) :
  depth <= LIMIT_DEPTH C ->
  process_category R C api_key depth categoryDict st = (Ok (ndc, nds), st') ->
  rollup_of_node counted_total (fun _ => True) R C api_key depth categoryDict
    st ndc nds.
Proof.
  intros Hd H. rewrite process_category_eq in H.
  destruct (Z.ltb_spec (LIMIT_DEPTH C) depth); [lia |].
  unfold process_category_body in H.
  apply bind_ok in H as (categoryID & st1 & Hid & H).
  apply lift_ok in Hid as [Hid ->].
  apply bind_ok in H as (categoryName & st1 & Hname & H).
  apply lift_ok in Hname as [Hname ->].
  apply bind_ok in H as ([] & st1 & Hemit & H).
  apply bind_ok in H as (children_series & st2 & Hgs & H).
  apply bind_ok in H as (direct & st3 & Hpcs & H).
  pose proof (children_series_counts _ _ _ _ _ _ _ Hpcs) as Hdirect.
  unfold process_child_categories in H.
  apply bind_ok in H as (children_categories & st4 & Hgc & H).
  apply bind_ok in H as (categories & st4' & Hcats & H).
  apply lift_ok in Hcats as [Hcats ->].
  apply bind_ok in H as (counts & st5 & Hloop & H).
  assert (Hmid : exists subdicts results st5',
             listed_categories children_categories = Ok subdicts /\
             child_calls R (process_category R C api_key (depth + 1)) categoryID
               subdicts
               (match subdicts with
                | [] => st4
                | _ :: _ => snd (inc_categories (Z.of_nat (length subdicts)) st4)
                end) results st5' /\
             counts = (Z.of_nat (length subdicts),
                       (Z.of_nat (length subdicts) + Zsum (fst <$> results),
                        snd direct + Zsum (snd <$> results)))).
  { unfold listed_categories. rewrite Hcats.
    destruct (truthy categories) eqn:Htr.
    - apply bind_ok in Hloop as (num_categories & s1 & Hlen & Hloop).
      apply lift_ok in Hlen as [Hlen ->].
      apply bind_ok in Hloop as ([] & s1 & Hinc & Hloop).
      apply bind_ok in Hloop as (subdicts & s2 & Hiter & Hloop).
      apply lift_ok in Hiter as [Hiter ->].
      apply bind_ok in Hloop as (totals & s3 & Hfor & Hloop).
      apply ret_ok in Hloop as [-> ->].
      apply for_categories_calls in Hfor as (results & Hcalls & ->).
      pose proof (len_of_iter _ _ _ Hlen Hiter) as ->.
      pose proof (truthy_len _ _ Htr Hlen) as Hpos.
      rewrite Hlen. exists subdicts, results, s3.
      split; [exact Hiter |]. split; [| reflexivity].
      destruct subdicts; [simpl in Hpos; lia |].
      unfold inc_categories, on_stats in Hinc. injection Hinc as <-.
      exact Hcalls.
    - apply ret_ok in Hloop as [-> ->].
      exists [], [], st4. split; [reflexivity |]. split; [constructor |].
      simpl. repeat f_equal; lia. }
  destruct Hmid as (subdicts & results & st5' & Hlist & Hcalls & ->).
  simpl in H.
  apply bind_ok in H as (u1 & s6 & _ & H).
  apply bind_ok in H as (u2 & s7 & _ & H).
  apply ret_ok in H as [[= -> ->] _].
  unfold emit in Hemit. injection Hemit as <-.
  exists categoryID, categoryName, children_series, st2, direct, st3,
         children_categories, st4, subdicts, results, st5'.
  rewrite Hdirect. simpl. repeat split; try assumption.
  rewrite <- Hdirect. exact Hpcs.
Qed.

(** C1, as the code has it: for every node that the traversal visits, the
    rollup of series that [process_category] returns is the total that the
    server reported for the node when the response carries both a total
    that is not zero and a list of items that is not empty, and 0
    otherwise, plus the rollups that the recursive calls on the child
    categories returned. The display cap has no part in it: whatever the
    configuration, the counts that [process_children_series] returns are
    computed from the response alone. *)
Theorem rollup_series_count (R : Runtime) (C : Config) (api_key : string)
    (depth : Z) (categoryDict : pyval) (st st' : App) (ndc nds : Z) :
  depth <= LIMIT_DEPTH C ->
  process_category R C api_key depth categoryDict st = (Ok (ndc, nds), st') ->
  rollup_of_node counted_total (fun _ => True) R C api_key depth categoryDict
    st ndc nds /\
  (forall C' children_series categoryID s s' direct,
     process_children_series R C' children_series categoryID s = (Ok direct, s') ->
     direct = (counted_total children_series, counted_total children_series)).
Proof.
  intros Hd H. split.
  - exact (visited_node_rollup R C api_key depth categoryDict st st' ndc nds Hd H).
  - intros C' cs cid s s' direct Hpcs.
    exact (children_series_counts R C' cs cid s s' direct Hpcs).
Qed.

Lemma rollup_series_count_witness :
  let R := Demo.runtime Demo.pages500 Demo.values500 in
  let C := Demo.config 1 100 in
  let st := Demo.start R C true in
  fst (traverse R C Demo.key st) = Ok (0, 500) /\
  rollup_of_node counted_total (fun _ => True) R C Demo.key 0
    (rootCategoryDict C) st 0 500.
Proof.
  intros R C st.
  assert (Hd : 0 <= LIMIT_DEPTH C) by (vm_compute; discriminate).
  assert (Hrun : process_category R C Demo.key 0 (rootCategoryDict C) st
                 = (Ok (0, 500), snd (traverse R C Demo.key st)))
    by (vm_compute; reflexivity).
  split.
  - unfold traverse. rewrite Hrun. reflexivity.
  - exact (proj1 (rollup_series_count R C Demo.key 0 (rootCategoryDict C) st _
                    0 500 Hd Hrun)).
Defined.

(** The calls on the child categories are determined by the state they
    start from. *)
Lemma child_calls_functional (R : Runtime) (recurse : pyval -> M (Z * Z))
    (categoryID : pyval) (subdicts : list pyval) (st st1 : App)
    (results1 : list (Z * Z)) :
  child_calls R recurse categoryID subdicts st results1 st1 ->
  forall results2 st2,
    child_calls R recurse categoryID subdicts st results2 st2 ->
    results1 = results2 /\ st1 = st2.
Proof.
  intros H1. induction H1 as [| ? ? ? ? ? ? ? ? ? ? Hn Hi Hc Hr ? IH];
    intros results2 st2' H2; inversion H2; subst.
  - auto.
  - match goal with
    | Hn' : py_subscript subdict "name" = Ok ?n,
      Hi' : py_subscript subdict "id" = Ok ?i |- _ =>
        rewrite Hn in Hn'; rewrite Hi in Hi';
        injection Hn' as <-; injection Hi' as <-
    end.
    match goal with
    | Hc' : on_tree _ st = (Ok tt, ?s) |- _ =>
        rewrite Hc in Hc'; injection Hc' as <-
    end.
    match goal with
    | Hr' : recurse subdict st1 = (Ok ?c, ?s) |- _ =>
        rewrite Hr in Hr'; injection Hr' as <- <-
    end.
    match goal with
    | Hrest : child_calls _ _ _ rest st2 _ _ |- _ =>
        apply IH in Hrest as [<- <-]
    end.
    auto.
Qed.

(** Two accounts of the same call agree on the response for the series
    and on what the child categories returned, so they differ only by
    what each takes from that response. *)
Lemma rollup_of_node_compare (f g : pyval -> Z)
    (P Q : list (Z * Z) -> Prop) (R : Runtime) (C : Config)
    (api_key : string) (depth : Z) (categoryDict : pyval) (st : App)
    (ndc1 nds1 ndc2 nds2 : Z) :
  rollup_of_node f P R C api_key depth categoryDict st ndc1 nds1 ->
  rollup_of_node g Q R C api_key depth categoryDict st ndc2 nds2 ->
  exists categoryID categoryName children_series,
    py_subscript categoryDict "id" = Ok categoryID /\
    py_subscript categoryDict "name" = Ok categoryName /\
    fst (get_children_series R C api_key categoryID
           (snd (emit (Progress (repeat_str " " (Z.to_nat (4 * depth)) +:+ "[#"
                                 +:+ py_str R categoryID +:+ "] "
                                 +:+ py_str R categoryName)) st)))
      = Ok children_series /\
    nds1 - f children_series = nds2 - g children_series.
Proof.
  intros (cid & name & cs & st2 & direct & st3 & cc & st4 & subdicts & results
          & st5 & Hid & Hname & Hgs & Hpcs & Hgc & Hlist & Hcalls & _ & -> & _)
         (cid' & name' & cs' & st2' & direct' & st3' & cc' & st4' & subdicts'
          & results' & st5' & Hid' & Hname' & Hgs' & Hpcs' & Hgc' & Hlist'
          & Hcalls' & _ & -> & _).
  rewrite Hid in Hid'. injection Hid' as <-.
  rewrite Hname in Hname'. injection Hname' as <-.
  rewrite Hgs in Hgs'. injection Hgs' as <- <-.
  rewrite Hpcs in Hpcs'. injection Hpcs' as <- <-.
  rewrite Hgc in Hgc'. injection Hgc' as <- <-.
  rewrite Hlist in Hlist'. injection Hlist' as <-.
  destruct (child_calls_functional _ _ _ _ _ _ _ Hcalls _ _ Hcalls') as [<- _].
  exists cid, name, cs. rewrite Hgs. repeat split; try assumption. lia.
Qed.

(** The sentence of C1 fails for a category whose response reports five
    series and lists none: the node brings 0 to its rollup, not 5. *)
Lemma total_without_items_is_not_counted :
  ~ rollup_is_reported_total (Demo.runtime Demo.pages5 Demo.values5)
      (Demo.config 1 5) Demo.key 0 (rootCategoryDict (Demo.config 1 5))
      (Demo.start (Demo.runtime Demo.pages5 Demo.values5) (Demo.config 1 5) true).
Proof.
  intros H.
  set (R := Demo.runtime Demo.pages5 Demo.values5) in *.
  set (C := Demo.config 1 5) in *.
  set (st := Demo.start R C true) in *.
  assert (Hd : 0 <= LIMIT_DEPTH C) by (vm_compute; discriminate).
  assert (Hrun : process_category R C Demo.key 0 (rootCategoryDict C) st
                 = (Ok (0, 0), snd (traverse R C Demo.key st)))
    by (vm_compute; reflexivity).
  destruct (rollup_of_node_compare _ _ _ _ _ _ _ _ _ _ _ _ _ _
              (H 0 0 _ Hrun) (visited_node_rollup _ _ _ _ _ _ _ _ _ Hd Hrun))
    as (cid & name & cs & Hid & Hname & Hgs & Hdiff).
  vm_compute in Hid. injection Hid as <-.
  vm_compute in Hname. injection Hname as <-.
  vm_compute in Hgs. injection Hgs as <-.
  vm_compute in Hdiff. discriminate.
Qed.

(** Child calls that all return (0, 0) add nothing to the rollups. *)
Lemma child_calls_below_limit (R : Runtime) (recurse : pyval -> M (Z * Z))
    (categoryID : pyval) (subdicts : list pyval) (st st' : App)
    (results : list (Z * Z)) :
  (forall subdict s, recurse subdict s = (Ok (0, 0), s)) ->
  child_calls R recurse categoryID subdicts st results st' ->
  none_counted results.
Proof.
  intros Hrec Hcalls. induction Hcalls as [| ? ? ? ? ? ? ? ? ? ? ? ? ? Hr ? IH].
  - repeat split. apply List.Forall_nil.
  - rewrite Hrec in Hr. injection Hr as <- _.
    destruct IH as (IH0 & IH1 & IH2). unfold Zsum in *. simpl.
    repeat split; try assumption. apply List.Forall_cons; [reflexivity | exact IH0].
Qed.

(** The sentence of C2 fails in its own scenario: the root does not get
    the descendant-category count 2. *)
Lemma root_of_scenario_does_not_count_two :
  ~ (exists nds st',
       traverse (Demo.runtime Demo.pages2 Demo.values2) (Demo.config 1 5) Demo.key
         (Demo.start (Demo.runtime Demo.pages2 Demo.values2) (Demo.config 1 5) true)
       = (Ok (2, nds), st')).
Proof.
  intros (nds & st' & H). vm_compute in H. discriminate.
Qed.

(** C2, as the code has it. In the scenario (maximum depth 1, a root with
    two child categories that have one child category each) the traversal
    works on the root and on its two children and on nothing else: these
    three are the categories it logs and asks the server about. Each
    grandchild still gets its node in the tree and is counted by its
    parent, so the descendant-category count of the root is 4. In
    general, a call on a node deeper than the maximum returns (0, 0) at
    once and leaves the state as it is; so for a node at the maximum depth
    every call on a child returns (0, 0), and the node returns the number
    of child categories that the server lists for it and its own count of
    series. *)
Theorem depth_limit (R : Runtime) (C : Config) (api_key : string) :
  (forall depth categoryDict st,
     LIMIT_DEPTH C < depth ->
     process_category R C api_key depth categoryDict st = (Ok (0, 0), st)) /\
  (forall categoryDict st ndc nds st',
     process_category R C api_key (LIMIT_DEPTH C) categoryDict st
       = (Ok (ndc, nds), st') ->
     rollup_of_node counted_total none_counted R C api_key (LIMIT_DEPTH C)
       categoryDict st ndc nds) /\
  (let R2 := Demo.runtime Demo.pages2 Demo.values2 in
   let C2 := Demo.config 1 5 in
   let run := traverse R2 C2 Demo.key (Demo.start R2 C2 true) in
   fst run = Ok (4, 0) /\
   progress_lines (trace (snd run))
     = ["[#0] <root>"; "    [#1] one"; "    [#2] two"] /\
   requests (trace (snd run))
     = [Demo.series_url "0" "5"; Demo.children_url "0";
        Demo.series_url "1" "5"; Demo.children_url "1";
        Demo.series_url "2" "5"; Demo.children_url "2"] /\
   identifier <$> fred_data_tree (snd run)
     = [Named "0"; Named "1"; Named "11"; Named "2"; Named "21"]).
Proof.
  assert (Hbelow : forall depth categoryDict st,
            LIMIT_DEPTH C < depth ->
            process_category R C api_key depth categoryDict st = (Ok (0, 0), st)).
  { intros depth categoryDict st Hgt. rewrite process_category_eq.
    destruct (Z.ltb_spec (LIMIT_DEPTH C) depth); [reflexivity | lia]. }
  split; [exact Hbelow |]. split.
  - intros categoryDict st ndc nds st' H.
    apply visited_node_rollup in H; [| lia].
    destruct H as (cid & name & cs & st2 & direct & st3 & cc & st4 & subdicts
                   & results & st5 & Hid & Hname & Hgs & Hpcs & Hgc & Hlist
                   & Hcalls & _ & Hnds & Hndc).
    exists cid, name, cs, st2, direct, st3, cc, st4, subdicts, results, st5.
    repeat split; try assumption;
      apply (child_calls_below_limit _ _ _ _ _ _ _
               (fun subdict s =>
                  Hbelow (LIMIT_DEPTH C + 1) subdict s ltac:(lia)) Hcalls).
  - vm_compute. repeat split.
Qed.

Lemma depth_limit_witness :
  let R := Demo.runtime Demo.pages2 Demo.values2 in
  let C := Demo.config 1 5 in
  let st := Demo.start R C true in
  process_category R C Demo.key 2 (Demo.category 11 "one-one") st = (Ok (0, 0), st).
Proof.
  intros R C st.
  apply (proj1 (depth_limit R C Demo.key)).
  vm_compute. reflexivity.
Defined.

End TraversalProofs.

(** ** More about the cache *)

Module CacheMore.
Import CacheTool CacheSpec CacheRuns.

(** X1: a cache that is saved and then loaded by a new cacher with the
    same settings comes back with the same store, timestamps included,
    and with all counters at zero; this needs the file to be writable and
    the JSON text of the store to decode to the store. *)
Theorem saved_cache_is_loaded_back (R : Runtime) (c : Cacher) (disk : Disk) :
  enabled c = true ->
  writable R (cache_file_name c) = true ->
  json_loads R (json_dumps R (cache_dict c)) = Some (cache_dict c) ->
  initialize R (save_cache_file R disk c) true (cache_file_name c)
             (cache_expiration_hours c)
  = mkCacher true (cache_file_name c) (cache_expiration_hours c) (cache_dict c)
             (mkCacheStats 0 0 0 0).
Proof.
  intros He Hw Hjson. unfold initialize, save_cache_file, load_cache_file.
  rewrite He, Hw. simpl. rewrite lookup_insert_eq, Hjson. reflexivity.
Qed.

Lemma saved_cache_is_loaded_back_witness :
  initialize Samples.json_of_store1
    (save_cache_file Samples.json_of_store1 ∅ Samples.cacher1) true "cache.json" 24
  = mkCacher true "cache.json" 24 Samples.store1 (mkCacheStats 0 0 0 0).
Proof.
  exact (saved_cache_is_loaded_back Samples.json_of_store1 Samples.cacher1 ∅
           eq_refl eq_refl eq_refl).
Defined.

(** X2: on an enabled cache, a second write under a key replaces the
    first one altogether, and a write under one key changes nothing for
    the reads of another key: they return the same value and are counted
    the same way. *)
Theorem write_replaces_and_leaves_others (R : Runtime) (c : Cacher)
    (d : gmap string pyval) (key : string) :
  enabled c = true -> cache_dict c = PDict d ->
  (forall t1 v1 t2 v2,
     snd (write_cached_data R t2 key v2 (snd (write_cached_data R t1 key v1 c)))
     = snd (write_cached_data R t2 key v2 c)) /\
  (forall t v now other,
     other <> key ->
     fst (read_cached_data R now other (snd (write_cached_data R t key v c)))
       = fst (read_cached_data R now other c) /\
     stats (snd (read_cached_data R now other (snd (write_cached_data R t key v c))))
       = stats (snd (read_cached_data R now other c))).
Proof.
  intros He Hd. split.
  - intros t1 v1 t2 v2. unfold write_cached_data. rewrite He, Hd. simpl.
    rewrite He. simpl. unfold set_cache_dict. simpl.
    rewrite insert_insert_eq. reflexivity.
  - intros t v now other Hne. unfold write_cached_data. rewrite He, Hd. simpl.
    unfold read_cached_data. simpl. rewrite He, Hd. simpl.
    rewrite lookup_insert_ne by congruence.
    destruct (d !! other) as [entry |]; simpl; [| auto].
    destruct entry; simpl; auto.
    match goal with
    | |- context [truthy ?ts] => destruct (truthy ts); simpl; auto
    end.
    match goal with
    | |- context [timestamp_fresh R now ?h ?ts] =>
        destruct (timestamp_fresh R now h ts) as [[] |]; simpl; auto
    end.
Qed.

Lemma write_replaces_and_leaves_others_witness :
  let R := Demo.offline in
  let c := Demo.empty_cacher true in
  snd (write_cached_data R 5 "a" (PStr "new") (snd (write_cached_data R 1 "a" (PStr "old") c)))
  = snd (write_cached_data R 5 "a" (PStr "new") c).
Proof.
  intros R c.
  exact (proj1 (write_replaces_and_leaves_others R c ∅ "a" eq_refl eq_refl)
           1 (PStr "old") 5 (PStr "new")).
Defined.

Lemma read_frame (R : Runtime) (now : Z) (key : string) (c : Cacher) :
  let c' := snd (read_cached_data R now key c) in
  enabled c' = enabled c /\
  cache_file_name c' = cache_file_name c /\
  cache_expiration_hours c' = cache_expiration_hours c /\
  cache_dict c' = cache_dict c.
Proof.
  unfold read_cached_data.
  destruct (enabled c) eqn:He; simpl; [| auto].
  destruct (py_get (cache_dict c) key) as [entry |]; [| simpl; auto].
  destruct (py_get entry "timestamp") as [ts |];
    [| destruct entry; simpl; auto].
  destruct (truthy ts);
    [destruct (timestamp_fresh R now (cache_expiration_hours c) ts) as [[] |] |];
    destruct entry; simpl; auto.
Qed.

(** X3: a read changes nothing in the cacher but its statistics, whatever
    it finds and even when it raises: the store keeps every entry, the
    expired and the invalid ones too, and the cache stays enabled or
    disabled as it was. *)
Theorem read_changes_statistics_only (R : Runtime) (now : Z) (key : string)
    (c : Cacher) :
  let c' := snd (read_cached_data R now key c) in
  enabled c' = enabled c /\
  cache_file_name c' = cache_file_name c /\
  cache_expiration_hours c' = cache_expiration_hours c /\
  cache_dict c' = cache_dict c.
Proof. exact (read_frame R now key c). Qed.



(** X5: the cacher does not check the shape of what it loaded. On an
    enabled cacher whose store is not a mapping a read raises
    [AttributeError] and a write raises [TypeError]; when the store is a
    mapping but the entry of the key is neither null nor an object, the
    read raises [AttributeError]. In each case the cacher is left as it
    was, counters included. *)
Theorem malformed_store_raises (R : Runtime) (now : Z) (key : string)
    (c : Cacher) :
  enabled c = true ->
  (is_dict (cache_dict c) = false ->
     read_cached_data R now key c = (Raise AttributeError, c) /\
     forall data, write_cached_data R now key data c = (Raise TypeError, c)) /\
  (forall d e, cache_dict c = PDict d -> d !! key = Some e ->
     e <> PNone -> is_dict e = false ->
     read_cached_data R now key c = (Raise AttributeError, c)).
Proof.
  intros He. split.
  - intros Hnd. unfold read_cached_data, write_cached_data. rewrite He.
    destruct (cache_dict c); try discriminate; simpl; auto.
  - intros d e Hd Hk Hnn Hnd. unfold read_cached_data. rewrite He, Hd. simpl.
    rewrite Hk. simpl.
    destruct e; try discriminate; try contradiction; reflexivity.
Qed.

Lemma malformed_store_raises_witness :
  let c := mkCacher true "cache.json" 24 (PList []) (mkCacheStats 0 0 0 0) in
  read_cached_data Demo.offline 0 "X" c = (Raise AttributeError, c).
Proof.
  intros c.
  exact (proj1 (proj1 (malformed_store_raises Demo.offline 0 "X" c eq_refl) eq_refl)).
Defined.

Lemma write_keeps_well_formed (R : Runtime) (now : Z) (key : string)
    (data : pyval) (d : gmap string pyval) :
  well_formed_store d -> well_formed_store (<[key := new_entry R now data]> d).
Proof.
  intros Hwf k e Hk.
  destruct (decide (key = k)) as [-> | Hne].
  - rewrite lookup_insert_eq in Hk. injection Hk as <-. right.
    unfold new_entry. eauto.
  - rewrite lookup_insert_ne in Hk by assumption. eauto.
Qed.

(** X6: on an enabled cache whose store maps keys to objects, the four
    counters together go up by one at each read and stay as they are at
    each write, through any series of reads and writes: their sum counts
    the reads. *)
Theorem counters_count_the_reads (R : Runtime) (calls : list call) :
  forall (c : Cacher) (d : gmap string pyval),
    enabled c = true -> cache_dict c = PDict d -> well_formed_store d ->
    counted (stats (after R calls c)) = counted (stats c) + reads calls.
Proof.
  induction calls as [| [now key | now key data] rest IH]; intros c d He Hd Hwf.
  - simpl. lia.
  - simpl.
    destruct (CacheProofs.read_verdict R now key c d He Hd Hwf) as (v & Hv & _).
    rewrite Hv. rewrite (IH (count (bump v) c) d He Hd Hwf).
    unfold counted. destruct v; simpl; lia.
  - simpl. unfold write_cached_data at 1. rewrite He, Hd. simpl.
    rewrite (IH (set_cache_dict (PDict (<[key := new_entry R now data]> d)) c)
               (<[key := new_entry R now data]> d) He eq_refl
               (write_keeps_well_formed R now key data d Hwf)).
    reflexivity.
Qed.

Lemma counters_count_the_reads_witness :
  counted (stats (after Demo.offline
                    [Read 0 "a"; Write 1 "a" (PStr "x"); Read 2 "a"; Read 3 "b"]
                    (Demo.empty_cacher true))) = 3.
Proof.
  assert (Hwf : well_formed_store ∅) by (intros k e H; discriminate).
  exact (counters_count_the_reads Demo.offline
           [Read 0 "a"; Write 1 "a" (PStr "x"); Read 2 "a"; Read 3 "b"]
           (Demo.empty_cacher true) ∅ eq_refl eq_refl Hwf).
Defined.

End CacheMore.

(** ** The credential at start-up *)

Module StartupProofs.
Import FRED_API Startup.

Lemma text_length_32 (key : string) :
  String.length key = 32%nat ->
  truthy (PStr key) = true /\ (Z.of_nat (String.length key) =? 32) = true.
Proof.
  intros H. rewrite H. split; [| reflexivity].
  destruct key; [discriminate | reflexivity].
Qed.

(** X7: the start-up accepts a credential exactly when the key file
    exists, decodes to an object, and holds under ["api_key"] a text of
    exactly 32 characters; the parameter is then [api_key=] followed by
    that text, whatever its characters are. In every other case (no file,
    no JSON, no object, no value, a value of another length, a value of
    length 32 that is not a text) the process ends with exit code -995. *)
Theorem credential_is_a_text_of_32 (R : Runtime) (disk : gmap string string) :
  (forall parameter,
     load_api_key R disk = Ok parameter <->
     exists text d key,
       disk !! API_KEY_FILE_NAME = Some text /\
       json_loads R text = Some (PDict d) /\
       d !! "api_key" = Some (PStr key) /\
       String.length key = 32%nat /\
       parameter = "api_key=" +:+ key) /\
  (forall e, load_api_key R disk = Raise e -> e = SystemExit (-995)).
Proof.
  split.
  - intros parameter. unfold load_api_key, read_api_key. split.
    + destruct (disk !! API_KEY_FILE_NAME) as [text |] eqn:Hf; [| discriminate].
      destruct (json_loads R text) as [v |] eqn:Hj; [| discriminate].
      destruct v as [| | | | | d]; simpl; try discriminate.
      destruct (d !! "api_key") as [v |] eqn:Hk; simpl; [| discriminate].
      destruct v as [| b | n | key | l | d']; simpl; try discriminate.
      * destruct b; discriminate.
      * destruct (n =? 0); discriminate.
      * destruct (String.eqb key ""); simpl; [discriminate |].
        destruct (Z.eqb_spec (Z.of_nat (String.length key)) 32); simpl;
          [| discriminate].
        intros [= <-]. exists text, d, key. repeat split; try assumption. lia.
      * destruct (Nat.eqb (length l) 0); simpl; [discriminate |].
        destruct (Z.of_nat (length l) =? 32); discriminate.
      * destruct (Nat.eqb (size d') 0); simpl; [discriminate |].
        destruct (Z.of_nat (size d') =? 32); discriminate.
    + intros (text & d & key & Hf & Hj & Hk & Hlen & ->).
      rewrite Hf, Hj. simpl. rewrite Hk. simpl.
      destruct (text_length_32 key Hlen) as [Ht Hl]. simpl in Ht.
      rewrite Ht, Hl. reflexivity.
  - intros e. unfold load_api_key.
    destruct (read_api_key R disk); [discriminate |]. intros [= <-]. reflexivity.
Qed.

End StartupProofs.

(** ** More about the request layer *)

Module RequestMore.
Import FRED_API RequestSpec RequestProofs CacheRuns TraversalSpec.



Lemma non_dict_store_silences (R : Runtime) (C : Config)
    (api_key rest_path : string) (st : App) :
  CacheTool.enabled (APICacher st) = true ->
  is_dict (CacheTool.cache_dict (APICacher st)) = false ->
  contains API_KEY_PARAM_NAME (lower rest_path) = false ->
  get_rest_data R C api_key rest_path st
  = (Ok (PDict ∅),
     mkApp (stats st) (APICacher st) (fred_data_tree st) (S (steps st))
           (trace st ++ [CacheRead (full_url C rest_path)])).
Proof.
  intros He Hnd Hg. rewrite (get_rest_data_unguarded R C api_key rest_path st Hg).
  run. unfold CacheTool.read_cached_data. rewrite He.
  destruct (CacheTool.cache_dict (APICacher st)); try discriminate; reflexivity.
Qed.

(** X9: a cache file that decodes to something that is not an object
    (a list, a number, a text) leaves the cache enabled with that value as
    its store, and then every request through [get_rest_data] returns the
    empty dict: the read raises, the bare [except] takes the exception,
    the server is never called and nothing is written. *)
Theorem unreadable_store_silences_requests (R : Runtime) (C : Config)
    (api_key rest_path : string) (st : App) (disk : CacheTool.Disk)
    (cache_file_name text : string) (expire_in_hours : Z) (loaded : pyval) :
  disk !! cache_file_name = Some text ->
  json_loads R text = Some loaded ->
  is_dict loaded = false ->
  APICacher st = CacheTool.initialize R disk true cache_file_name expire_in_hours ->
  contains API_KEY_PARAM_NAME (lower rest_path) = false ->
  CacheTool.enabled (APICacher st) = true /\
  CacheTool.cache_dict (APICacher st) = loaded /\
  get_rest_data R C api_key rest_path st
  = (Ok (PDict ∅),
     mkApp (stats st) (APICacher st) (fred_data_tree st) (S (steps st))
           (trace st ++ [CacheRead (full_url C rest_path)])).
Proof.
  intros Hfile Hjson Hnd Hinit Hg.
  assert (Hc : APICacher st
               = CacheTool.mkCacher true cache_file_name expire_in_hours loaded
                   (CacheTool.mkCacheStats 0 0 0 0)).
  { rewrite Hinit. unfold CacheTool.initialize, CacheTool.load_cache_file. simpl.
    rewrite Hfile, Hjson. reflexivity. }
  split; [rewrite Hc; reflexivity |]. split; [rewrite Hc; reflexivity |].
  apply non_dict_store_silences; [rewrite Hc; reflexivity | | exact Hg].
  rewrite Hc. exact Hnd.
Qed.

Lemma unreadable_store_silences_requests_witness :
  let R := Demo.runtime Demo.pages2 [("[]", PList [])] in
  let C := Demo.config 1 5 in
  let st := mkApp (mkAppStats 0 0 0)
              (CacheTool.initialize R {["cache.json" := "[]"]} true "cache.json" 24)
              (initialize_tree R C) 0 [] in
  fst (get_rest_data R C Demo.key "category/children?category_id=0" st)
    = Ok (PDict ∅) /\
  total_server_calls
    (stats (snd (get_rest_data R C Demo.key "category/children?category_id=0" st)))
    = 0.
Proof.
  intros R C st.
  assert (Hfile : ({["cache.json" := "[]"]} : CacheTool.Disk) !! "cache.json"
                  = Some "[]") by (vm_compute; reflexivity).
  destruct (unreadable_store_silences_requests R C Demo.key
              "category/children?category_id=0" st {["cache.json" := "[]"]}
              "cache.json" "[]" 24 (PList [])
              Hfile eq_refl eq_refl eq_refl eq_refl) as (_ & _ & Hrun).
  rewrite Hrun. split; reflexivity.
Defined.



(** X11: the counter of server calls counts attempts. When the cache has
    nothing usable and the call cannot be sent, because the configured
    pause is negative or because the URL is refused, [get_rest_data]
    returns the empty dict: the call is counted, no URL goes to the
    server and nothing is written to the cache. *)
Theorem unsendable_request_is_counted (R : Runtime) (C : Config)
    (api_key rest_path : string) (st : App) (data : pyval)
    (c1 : CacheTool.Cacher) :
  contains API_KEY_PARAM_NAME (lower rest_path) = false ->
  CacheTool.read_cached_data R (utcnow R (steps st)) (full_url C rest_path)
    (APICacher st) = (Ok data, c1) ->
  truthy data = false ->
  THROTTLE C < 0 \/
    request_accepts R (url_with_key api_key (full_url C rest_path)) = false ->
  get_rest_data R C api_key rest_path st
  = (Ok (PDict ∅),
     mkApp (mkAppStats (total_categories (stats st)) (total_series (stats st))
                       (total_server_calls (stats st) + 1))
           c1 (fred_data_tree st) (S (steps st))
           (trace st ++ [CacheRead (full_url C rest_path)])).
Proof.
  intros Hg Hread Hfalsy Hbad.
  rewrite (get_rest_data_unguarded R C api_key rest_path st Hg).
  run. rewrite Hread. simpl. rewrite Hfalsy. simpl.
  destruct (Z.ltb_spec (THROTTLE C) 0) as [Hneg | Hpos]; simpl; [reflexivity |].
  destruct Hbad as [Hbad | Hbad]; [lia |].
  unfold url_with_key in Hbad. rewrite Hbad. reflexivity.
Qed.

Lemma unsendable_request_is_counted_witness :
  let R := Demo.runtime Demo.pages2 Demo.values2 in
  let C := mkConfig "https://fred" (PInt 0) 1 5 (-1) in
  let st := Demo.start R C true in
  total_server_calls
    (stats (snd (get_rest_data R C Demo.key "category/children?category_id=0" st)))
    = 1 /\
  requests
    (trace (snd (get_rest_data R C Demo.key "category/children?category_id=0" st)))
    = [].
Proof.
  intros R C st.
  assert (Hbad : THROTTLE C < 0 \/
                 request_accepts R
                   (url_with_key Demo.key
                      (full_url C "category/children?category_id=0")) = false)
    by (left; vm_compute; reflexivity).
  rewrite (unsendable_request_is_counted R C Demo.key
             "category/children?category_id=0" st PNone _ eq_refl eq_refl eq_refl Hbad).
  split; reflexivity.
Defined.

End RequestMore.

(** ** Whole runs *)

Module RunProofs.
Import treelib FRED_API RequestSpec RequestProofs TraversalSpec RunSpec.

(** *** Relations that are kept step by step *)

Lemma Keeps_ret {A} (rel : App -> App -> Prop) `{!Reflexive rel} (a : A) :
  Keeps rel (ret a).
Proof. intros st. simpl. reflexivity. Qed.

Lemma Keeps_raise {A} (rel : App -> App -> Prop) `{!Reflexive rel} (e : exn) :
  Keeps rel (@raise A e).
Proof. intros st. simpl. reflexivity. Qed.

Lemma Keeps_lift {A} (rel : App -> App -> Prop) `{!Reflexive rel} (r : result A) :
  Keeps rel (lift r).
Proof. intros st. simpl. reflexivity. Qed.

Lemma Keeps_bind {A B} (rel : App -> App -> Prop) `{!Transitive rel}
    (m : M A) (f : A -> M B) :
  Keeps rel m -> (forall a, Keeps rel (f a)) -> Keeps rel (bind m f).
Proof.
  intros Hm Hf st. unfold bind. specialize (Hm st).
  destruct (m st) as [[a | e] st1]; simpl in *; [| exact Hm].
  etransitivity; [exact Hm | apply Hf].
Qed.

Lemma Keeps_try_except {A} (rel : App -> App -> Prop) `{!Transitive rel}
    (m h : M A) :
  Keeps rel m -> Keeps rel h -> Keeps rel (try_except m h).
Proof.
  intros Hm Hh st. unfold try_except. specialize (Hm st).
  destruct (m st) as [[a | e] st1]; simpl in *; [exact Hm |].
  etransitivity; [exact Hm | apply Hh].
Qed.

Lemma Keeps_when (rel : App -> App -> Prop) `{!Reflexive rel} (b : bool)
    (m : M unit) :
  Keeps rel m -> Keeps rel (when b m).
Proof. intros Hm. destruct b; [exact Hm | apply Keeps_ret; assumption]. Qed.

(** Reads the outcome of a kept relation off a run. *)
Lemma Keeps_run {A} (rel : App -> App -> Prop) (m : M A) (st st' : App)
    (r : result A) :
  Keeps rel m -> m st = (r, st') -> rel st st'.
Proof. intros Hm H. specialize (Hm st). rewrite H in Hm. exact Hm. Qed.

(** Takes a method apart along its binds, conditions and matches. *)
Ltac keeps_step :=
  first
    [ assumption
    | solve [auto with keeps]
    | apply Keeps_ret; solve [typeclasses eauto]
    | apply Keeps_raise; solve [typeclasses eauto]
    | apply Keeps_lift; solve [typeclasses eauto]
    | apply Keeps_bind; [solve [typeclasses eauto] | | intros ?]
    | apply Keeps_try_except; [solve [typeclasses eauto] | |]
    | apply Keeps_when; [solve [typeclasses eauto] |]
    | match goal with
      | |- Keeps _ (if ?b then _ else _) => destruct b
      | |- Keeps _ (match ?x with _ => _ end) => destruct x
      | |- Keeps _ (let (_, _) := ?x in _) => destruct x
      end ].
Ltac keeps := repeat keeps_step.

(** *** The tree only grows *)

Lemma prefix_refl (s : string) : String.prefix s s = true.
Proof.
  induction s as [| c t IH]; simpl; [reflexivity |].
  destruct (Ascii.ascii_dec c c); [exact IH | contradiction].
Qed.

Lemma prefix_append (s x : string) : String.prefix s (s +:+ x) = true.
Proof.
  induction s as [| c t IH]; simpl; [destruct x; reflexivity |].
  destruct (Ascii.ascii_dec c c); [exact IH | contradiction].
Qed.

Lemma prefix_trans (a b c : string) :
  String.prefix a b = true -> String.prefix b c = true -> String.prefix a c = true.
Proof.
  revert b c. induction a as [| x a IH]; intros b c Hab Hbc;
    [destruct c; reflexivity |].
  destruct b as [| y b]; [discriminate |].
  destruct c as [| z c]; [simpl in Hbc; discriminate |].
  simpl in *.
  destruct (Ascii.ascii_dec x y) as [-> |]; [| discriminate].
  destruct (Ascii.ascii_dec y z) as [-> |]; [| discriminate].
  destruct (Ascii.ascii_dec z z); [| contradiction].
  eapply IH; eassumption.
Qed.

Lemma node_kept_refl (nd : Node) : node_kept nd nd.
Proof. repeat split. apply prefix_refl. Qed.

Lemma node_kept_trans (a b c : Node) :
  node_kept a b -> node_kept b c -> node_kept a c.
Proof.
  intros (H1 & H2 & H3) (H4 & H5 & H6). repeat split; try congruence.
  eapply prefix_trans; eassumption.
Qed.

Lemma kept_refl (t : Tree) : Forall2 node_kept t t.
Proof. induction t; constructor; [apply node_kept_refl | assumption]. Qed.

#[export] Instance grows_refl : Reflexive grows.
Proof.
  intros t. exists t, []. split; [rewrite app_nil_r; reflexivity | apply kept_refl].
Qed.

#[export] Instance grows_trans : Transitive grows.
Proof.
  intros t1 t2 t3 (k1 & n1 & -> & H1) (k2 & n2 & -> & H2).
  apply Forall2_app_inv_l in H2 as (k2a & k2b & Ha & Hb & ->).
  exists k2a, (k2b ++ n2). split; [rewrite app_assoc; reflexivity |].
  clear Hb. revert k2a Ha. induction H1 as [| a b t1 k1 Hab H1 IH]; intros k2a Ha.
  - inversion Ha. constructor.
  - inversion Ha as [| b' c k1' k2' Hbc Hrest]; subst. constructor.
    + eapply node_kept_trans; eassumption.
    + apply IH. exact Hrest.
Qed.

#[export] Instance tree_grows_refl : Reflexive tree_grows.
Proof. intros st. unfold tree_grows. reflexivity. Qed.

#[export] Instance tree_grows_trans : Transitive tree_grows.
Proof. intros a b c. unfold tree_grows. apply grows_trans. Qed.

Lemma grows_by (t newer : Tree) : grows t (t ++ newer).
Proof. exists t, newer. split; [reflexivity | apply kept_refl]. Qed.

Lemma create_node_grows (tag : string) (identifier parent : option string)
    (t : Tree) :
  grows t (snd (create_node tag identifier parent t)).
Proof.
  unfold create_node.
  destruct (bool_decide _); simpl; [reflexivity |].
  destruct parent as [p |].
  - destruct (bool_decide _); simpl; [apply grows_by | reflexivity].
  - destruct t; simpl; [| reflexivity]. apply (grows_by [] [_]).
Qed.

Lemma append_tag_grows (nid : node_id) (suffix : string) (t : Tree) :
  grows t (append_tag nid suffix t).
Proof.
  exists (append_tag nid suffix t), []. split; [rewrite app_nil_r; reflexivity |].
  unfold append_tag. induction t as [| nd t IH]; simpl; constructor; [| exact IH].
  destruct (has_id nid nd); [| apply node_kept_refl].
  repeat split. simpl. apply prefix_append.
Qed.

Create HintDb keeps.

Lemma emit_grows (e : event) : Keeps tree_grows (emit e).
Proof. intros st. unfold tree_grows. simpl. reflexivity. Qed.

Lemma tick_grows : Keeps tree_grows tick.
Proof. intros st. unfold tree_grows. simpl. reflexivity. Qed.

Lemma on_stats_grows (f : AppStats -> AppStats) : Keeps tree_grows (on_stats f).
Proof. intros st. unfold tree_grows. simpl. reflexivity. Qed.

Lemma on_cacher_grows {A}
    (f : CacheTool.Cacher -> result A * CacheTool.Cacher) :
  Keeps tree_grows (on_cacher f).
Proof.
  intros st. unfold on_cacher, tree_grows. destruct (f (APICacher st)). simpl.
  reflexivity.
Qed.

Lemma create_grows (tag : string) (identifier parent : option string) :
  Keeps tree_grows (on_tree (create_node tag identifier parent)).
Proof.
  intros st. unfold on_tree, tree_grows.
  pose proof (create_node_grows tag identifier parent (fred_data_tree st)) as H.
  destruct (create_node tag identifier parent (fred_data_tree st)). exact H.
Qed.

Lemma append_to_tag_grows (nid suffix : string) :
  Keeps tree_grows (append_to_tag nid suffix).
Proof.
  intros st. unfold append_to_tag, on_tree, tree_grows.
  destruct (get_node (Named nid) (fred_data_tree st)); simpl.
  - apply append_tag_grows.
  - reflexivity.
Qed.

#[local] Hint Resolve emit_grows tick_grows on_stats_grows on_cacher_grows
  create_grows append_to_tag_grows : keeps.

Lemma get_rest_data_grows (R : Runtime) (C : Config) (api_key rest_path : string) :
  Keeps tree_grows (get_rest_data R C api_key rest_path).
Proof.
  unfold get_rest_data, make_caching_request, make_api_request,
    read_cached_data, write_cached_data, sleep, inc_server_calls.
  keeps.
Qed.

Lemma process_series_grows (R : Runtime) (series categoryID : pyval) :
  Keeps tree_grows (process_series R series categoryID).
Proof. unfold process_series. keeps. Qed.

Lemma for_series_grows (R : Runtime) (categoryID : pyval) (items : list pyval) :
  forall n, Keeps tree_grows (for_series R items categoryID n).
Proof.
  induction items as [| series rest IH]; intros n; simpl.
  - keeps.
  - apply Keeps_bind; [typeclasses eauto | apply process_series_grows |].
    intros _. apply IH.
Qed.

Lemma process_children_series_grows (R : Runtime) (C : Config)
    (children_series categoryID : pyval) :
  Keeps tree_grows (process_children_series R C children_series categoryID).
Proof.
  unfold process_children_series, inc_series.
  pose proof (for_series_grows R categoryID) as Hfor.
  keeps.
Qed.

Lemma for_categories_grows (R : Runtime) (recurse : pyval -> M (Z * Z))
    (categoryID : pyval) (subdicts : list pyval) :
  (forall subdict, Keeps tree_grows (recurse subdict)) ->
  forall totals, Keeps tree_grows (for_categories R recurse categoryID subdicts totals).
Proof.
  intros Hrec. induction subdicts as [| subdict rest IH]; intros totals; simpl.
  - keeps.
  - keeps.
Qed.

Lemma process_category_body_grows (R : Runtime) (C : Config) (api_key : string)
    (recurse : pyval -> M (Z * Z)) (depth : Z) (categoryDict : pyval) :
  (forall subdict, Keeps tree_grows (recurse subdict)) ->
  Keeps tree_grows (process_category_body R C api_key recurse depth categoryDict).
Proof.
  intros Hrec.
  unfold process_category_body, process_child_categories, get_children_series,
    get_child_categories, inc_categories.
  pose proof (get_rest_data_grows R C api_key) as Hget.
  pose proof (process_children_series_grows R C) as Hpcs.
  pose proof (for_categories_grows R recurse) as Hfor.
  keeps.
Qed.

Lemma process_category_levels_grows (R : Runtime) (C : Config) (api_key : string)
    (levels : nat) :
  forall depth categoryDict,
    Keeps tree_grows (process_category_levels R C api_key levels depth categoryDict).
Proof.
  induction levels as [| k IH]; intros depth categoryDict; simpl.
  - keeps.
  - apply process_category_body_grows. intros subdict. apply IH.
Qed.

(** X12: the traversal never removes a node from the tree, never moves
    one and never renames one: whatever [process_category] returns or
    raises, the nodes that were in the tree are still there in their
    order, with their identifier and their parent, each with a label that
    starts with the label it had, and the new nodes come after them. *)
Theorem tree_only_grows (R : Runtime) (C : Config) (api_key : string)
    (depth : Z) (categoryDict : pyval) (st : App) :
  grows (fred_data_tree st)
        (fred_data_tree (snd (process_category R C api_key depth categoryDict st))).
Proof.
  exact (process_category_levels_grows R C api_key _ depth categoryDict st).
Qed.

(** *** Events of the traversal *)

#[export] Instance adds_events_refl (P : event -> Prop) : Reflexive (adds_events P).
Proof.
  intros st. exists []. split; [rewrite app_nil_r; reflexivity | apply List.Forall_nil].
Qed.

#[export] Instance adds_events_trans (P : event -> Prop) :
  Transitive (adds_events P).
Proof.
  intros a b c (e1 & H1 & F1) (e2 & H2 & F2). exists (e1 ++ e2). split.
  - rewrite H2, H1, app_assoc. reflexivity.
  - apply Forall_app. split; assumption.
Qed.

Lemma adds_nothing (P : event -> Prop) (st st' : App) :
  trace st' = trace st -> adds_events P st st'.
Proof.
  intros H. exists []. split; [rewrite app_nil_r; exact H | apply List.Forall_nil].
Qed.

Section Events.
Context (R : Runtime) (C : Config) (api_key : string).

#[local] Abbreviation ok := (adds_events (traversal_event_ok C api_key)).

Lemma progress_ok (text : string) : Keeps ok (emit (Progress text)).
Proof.
  intros st. exists [Progress text]. split; [reflexivity |].
  apply List.Forall_cons; [exact I | apply List.Forall_nil].
Qed.

Lemma on_stats_ok (f : AppStats -> AppStats) : Keeps ok (on_stats f).
Proof. intros st. apply adds_nothing. reflexivity. Qed.

Lemma on_tree_ok {A} (f : Tree -> result A * Tree) : Keeps ok (on_tree f).
Proof.
  intros st. apply adds_nothing. unfold on_tree.
  destruct (f (fred_data_tree st)). reflexivity.
Qed.

Lemma get_rest_data_ok (rest_path : string) :
  Keeps ok (get_rest_data R C api_key rest_path).
Proof.
  intros st.
  destruct (contains API_KEY_PARAM_NAME (lower rest_path)) eqn:Hg.
  - unfold get_rest_data. rewrite Hg. apply adds_nothing. reflexivity.
  - destruct (get_rest_data_state R C api_key rest_path st Hg) as [_ ->].
    destruct (caching_request_contract R C api_key (full_url C rest_path) st)
      as (evs & Htr & Hev & _).
    exists evs. split; [exact Htr |].
    eapply List.Forall_impl; [| exact Hev].
    intros e He. destruct e; simpl; try (exists rest_path; split; assumption).
    exact I.
Qed.

Lemma append_to_tag_ok (nid suffix : string) : Keeps ok (append_to_tag nid suffix).
Proof. apply on_tree_ok. Qed.

#[local] Hint Resolve progress_ok on_stats_ok on_tree_ok get_rest_data_ok
  append_to_tag_ok : keeps.

Lemma process_series_ok (series categoryID : pyval) :
  Keeps ok (process_series R series categoryID).
Proof. unfold process_series. keeps. Qed.

Lemma for_series_ok (categoryID : pyval) (items : list pyval) :
  forall n, Keeps ok (for_series R items categoryID n).
Proof.
  induction items as [| series rest IH]; intros n; simpl.
  - keeps.
  - apply Keeps_bind; [typeclasses eauto | apply process_series_ok |].
    intros _. apply IH.
Qed.

Lemma process_children_series_ok (children_series categoryID : pyval) :
  Keeps ok (process_children_series R C children_series categoryID).
Proof.
  unfold process_children_series, inc_series.
  pose proof (for_series_ok categoryID) as Hfor.
  keeps.
Qed.

Lemma for_categories_ok (recurse : pyval -> M (Z * Z)) (categoryID : pyval)
    (subdicts : list pyval) :
  (forall subdict, Keeps ok (recurse subdict)) ->
  forall totals, Keeps ok (for_categories R recurse categoryID subdicts totals).
Proof.
  intros Hrec. induction subdicts as [| subdict rest IH]; intros totals; simpl;
    keeps.
Qed.

Lemma process_category_body_ok (recurse : pyval -> M (Z * Z)) (depth : Z)
    (categoryDict : pyval) :
  (forall subdict, Keeps ok (recurse subdict)) ->
  Keeps ok (process_category_body R C api_key recurse depth categoryDict).
Proof.
  intros Hrec.
  unfold process_category_body, process_child_categories, get_children_series,
    get_child_categories, inc_categories.
  pose proof process_children_series_ok as Hpcs.
  pose proof (for_categories_ok recurse) as Hfor.
  keeps.
Qed.

Lemma process_category_levels_ok (levels : nat) :
  forall depth categoryDict,
    Keeps ok (process_category_levels R C api_key levels depth categoryDict).
Proof.
  induction levels as [| k IH]; intros depth categoryDict; simpl.
  - keeps.
  - apply process_category_body_ok. intros subdict. apply IH.
Qed.

End Events.


(** *** Server calls and cache reads *)

Lemma reads_in_app (a b : list event) : reads_in (a ++ b) = reads_in a + reads_in b.
Proof.
  induction a as [| e a IH]; simpl; [reflexivity |]. destruct e; lia.
Qed.

Lemma requests_in_app (a b : list event) :
  requests_in (a ++ b) = requests_in a + requests_in b.
Proof.
  induction a as [| e a IH]; simpl; [reflexivity |]. destruct e; lia.
Qed.

Lemma no_call (st st' : App) :
  trace st' = trace st ->
  total_server_calls (stats st') = total_server_calls (stats st) ->
  calls_within_reads st st'.
Proof.
  intros Ht Hc. exists []. rewrite app_nil_r, Hc. simpl. repeat split; [exact Ht | lia | lia].
Qed.

#[export] Instance calls_within_reads_refl : Reflexive calls_within_reads.
Proof. intros st. apply no_call; reflexivity. Qed.

#[export] Instance calls_within_reads_trans : Transitive calls_within_reads.
Proof.
  intros a b c (e1 & H1 & L1 & U1) (e2 & H2 & L2 & U2). exists (e1 ++ e2).
  rewrite reads_in_app, requests_in_app. repeat split; [| lia | lia].
  rewrite H2, H1, app_assoc. reflexivity.
Qed.

Section Calls.
Context (R : Runtime) (C : Config) (api_key : string).

Lemma progress_no_call (text : string) :
  Keeps calls_within_reads (emit (Progress text)).
Proof.
  intros st. exists [Progress text]. simpl. repeat split; lia.
Qed.

Lemma inc_series_no_call (n : Z) : Keeps calls_within_reads (inc_series n).
Proof. intros st. apply no_call; reflexivity. Qed.

Lemma inc_categories_no_call (n : Z) : Keeps calls_within_reads (inc_categories n).
Proof. intros st. apply no_call; reflexivity. Qed.

Lemma on_tree_no_call {A} (f : Tree -> result A * Tree) :
  Keeps calls_within_reads (on_tree f).
Proof.
  intros st. unfold on_tree. destruct (f (fred_data_tree st)).
  apply no_call; reflexivity.
Qed.

Lemma append_to_tag_no_call (nid suffix : string) :
  Keeps calls_within_reads (append_to_tag nid suffix).
Proof. apply on_tree_no_call. Qed.

Lemma caching_request_calls (url : string) :
  Keeps calls_within_reads (make_caching_request R C api_key url).
Proof.
  intros st. run.
  destruct (CacheTool.read_cached_data R (utcnow R (steps st)) url (APICacher st))
    as [[data | e] c1]; simpl.
  2:{ exists [CacheRead url]. simpl. repeat split; lia. }
  destruct (truthy data); simpl.
  { exists [CacheRead url]. simpl. repeat split; lia. }
  destruct (THROTTLE C <? 0); simpl.
  { exists [CacheRead url]. simpl. repeat split; lia. }
  destruct (request_accepts R _); simpl.
  2:{ exists [CacheRead url]. simpl. repeat split; lia. }
  destruct (urlopen R (S (steps st)) _) as [text |]; simpl;
    match goal with
    | |- context [CacheTool.write_cached_data R ?t url ?v c1] =>
        destruct (CacheTool.write_cached_data R t url v c1) as [[[] | e] c2];
        simpl;
        eexists [CacheRead url; Request _; CacheWrite url v];
        simpl; (split; [rewrite <- !app_assoc; reflexivity |]); split; lia
    end.
Qed.

Lemma get_rest_data_calls (rest_path : string) :
  Keeps calls_within_reads (get_rest_data R C api_key rest_path).
Proof.
  intros st.
  destruct (contains API_KEY_PARAM_NAME (lower rest_path)) eqn:Hg.
  - unfold get_rest_data. rewrite Hg. apply no_call; reflexivity.
  - destruct (get_rest_data_state R C api_key rest_path st Hg) as [_ ->].
    apply caching_request_calls.
Qed.

#[local] Hint Resolve progress_no_call inc_series_no_call inc_categories_no_call
  on_tree_no_call append_to_tag_no_call get_rest_data_calls : keeps.

Lemma process_series_calls (series categoryID : pyval) :
  Keeps calls_within_reads (process_series R series categoryID).
Proof. unfold process_series. keeps. Qed.

Lemma for_series_calls (categoryID : pyval) (items : list pyval) :
  forall n, Keeps calls_within_reads (for_series R items categoryID n).
Proof.
  induction items as [| series rest IH]; intros n; simpl.
  - keeps.
  - apply Keeps_bind; [typeclasses eauto | apply process_series_calls |].
    intros _. apply IH.
Qed.

Lemma process_children_series_calls (children_series categoryID : pyval) :
  Keeps calls_within_reads (process_children_series R C children_series categoryID).
Proof.
  unfold process_children_series.
  pose proof (for_series_calls categoryID) as Hfor.
  keeps.
Qed.

Lemma for_categories_calls_kept (recurse : pyval -> M (Z * Z)) (categoryID : pyval)
    (subdicts : list pyval) :
  (forall subdict, Keeps calls_within_reads (recurse subdict)) ->
  forall totals,
    Keeps calls_within_reads (for_categories R recurse categoryID subdicts totals).
Proof.
  intros Hrec. induction subdicts as [| subdict rest IH]; intros totals; simpl;
    keeps.
Qed.

Lemma process_category_body_calls (recurse : pyval -> M (Z * Z)) (depth : Z)
    (categoryDict : pyval) :
  (forall subdict, Keeps calls_within_reads (recurse subdict)) ->
  Keeps calls_within_reads
    (process_category_body R C api_key recurse depth categoryDict).
Proof.
  intros Hrec.
  unfold process_category_body, process_child_categories, get_children_series,
    get_child_categories.
  pose proof process_children_series_calls as Hpcs.
  pose proof (for_categories_calls_kept recurse) as Hfor.
  keeps.
Qed.

Lemma process_category_levels_calls (levels : nat) :
  forall depth categoryDict,
    Keeps calls_within_reads
      (process_category_levels R C api_key levels depth categoryDict).
Proof.
  induction levels as [| k IH]; intros depth categoryDict; simpl.
  - keeps.
  - apply process_category_body_calls. intros subdict. apply IH.
Qed.

End Calls.

(** X14: the server is called only after the cache was asked. Through
    the whole traversal, whatever it returns or raises, the counter of
    server calls goes up by no more than the number of cache reads, and
    the number of URLs actually sent to the server is no more than what
    the counter went up by. *)
Theorem server_calls_follow_cache_reads (R : Runtime) (C : Config)
    (api_key : string) (depth : Z) (categoryDict : pyval) (st : App) :
  let st' := snd (process_category R C api_key depth categoryDict st) in
  exists evs,
    trace st' = trace st ++ evs /\
    requests_in evs
      <= total_server_calls (stats st') - total_server_calls (stats st) /\
    total_server_calls (stats st') - total_server_calls (stats st)
      <= reads_in evs.
Proof.
  exact (process_category_levels_calls R C api_key _ depth categoryDict st).
Qed.

(** *** The counters of the application *)

Import TraversalProofs.

#[export] Instance same_counts_refl : Reflexive same_counts.
Proof. intros st. split; reflexivity. Qed.

#[export] Instance same_counts_trans : Transitive same_counts.
Proof. intros a b c [H1 H2] [H3 H4]. split; congruence. Qed.

Lemma emit_counts (e : event) : Keeps same_counts (emit e).
Proof. intros st. split; reflexivity. Qed.

Lemma tick_counts : Keeps same_counts tick.
Proof. intros st. split; reflexivity. Qed.

Lemma inc_server_calls_counts : Keeps same_counts inc_server_calls.
Proof. intros st. split; reflexivity. Qed.

Lemma on_cacher_counts {A}
    (f : CacheTool.Cacher -> result A * CacheTool.Cacher) :
  Keeps same_counts (on_cacher f).
Proof.
  intros st. unfold on_cacher. destruct (f (APICacher st)). split; reflexivity.
Qed.

Lemma on_tree_counts {A} (f : Tree -> result A * Tree) :
  Keeps same_counts (on_tree f).
Proof.
  intros st. unfold on_tree. destruct (f (fred_data_tree st)). split; reflexivity.
Qed.

Lemma append_to_tag_counts (nid suffix : string) :
  Keeps same_counts (append_to_tag nid suffix).
Proof. apply on_tree_counts. Qed.

#[local] Hint Resolve emit_counts tick_counts inc_server_calls_counts
  on_cacher_counts on_tree_counts append_to_tag_counts : keeps.

Lemma get_rest_data_counts (R : Runtime) (C : Config) (api_key rest_path : string) :
  Keeps same_counts (get_rest_data R C api_key rest_path).
Proof.
  unfold get_rest_data, make_caching_request, make_api_request,
    read_cached_data, write_cached_data, sleep.
  keeps.
Qed.

Lemma process_series_counts (R : Runtime) (series categoryID : pyval) :
  Keeps same_counts (process_series R series categoryID).
Proof. unfold process_series. keeps. Qed.

Lemma for_series_counts (R : Runtime) (categoryID : pyval) (items : list pyval) :
  forall n, Keeps same_counts (for_series R items categoryID n).
Proof.
  induction items as [| series rest IH]; intros n; simpl.
  - keeps.
  - apply Keeps_bind; [typeclasses eauto | apply process_series_counts |].
    intros _. apply IH.
Qed.

(** The series of a node are added to the counter of series as they are
    returned. *)
Lemma process_children_series_adds (R : Runtime) (C : Config)
    (children_series categoryID : pyval) (st st' : App) (direct : Z * Z) :
  process_children_series R C children_series categoryID st = (Ok direct, st') ->
  total_categories (stats st') = total_categories (stats st) /\
  total_series (stats st') = total_series (stats st) + snd direct.
Proof.
  intros H. unfold process_children_series in H.
  apply bind_ok in H as (num_series & st1 & Hn & H).
  apply lift_ok in Hn as [_ ->].
  apply bind_ok in H as (seriess & st1 & Hs & H).
  apply lift_ok in Hs as [_ ->].
  destruct (truthy num_series && truthy seriess)%bool.
  - apply bind_ok in H as (n & st1 & Hn & H). apply lift_ok in Hn as [_ ->].
    apply bind_ok in H as ([] & st1 & Hinc & H).
    unfold inc_series, on_stats in Hinc. injection Hinc as <-.
    apply bind_ok in H as (shown & st2 & Hsl & H). apply lift_ok in Hsl as [_ ->].
    apply bind_ok in H as (num_remaining & st3 & Hfor & H).
    apply (Keeps_run same_counts _ _ _ _ (for_series_counts R categoryID shown n))
      in Hfor as [Hc1 Hs1].
    apply bind_ok in H as ([] & st4 & Hwhen & H).
    assert (Hw : same_counts st3 st4).
    { eapply Keeps_run; [| exact Hwhen]. keeps. }
    destruct Hw as [Hc2 Hs2].
    apply ret_ok in H as [-> ->]. simpl in *. split; congruence.
  - apply ret_ok in H as [-> ->]. simpl. split; [reflexivity | lia].
Qed.

(** The loop over the child categories adds to the counters what the
    calls on the children return, when each of these calls does. *)
Lemma for_categories_adds (R : Runtime) (recurse : pyval -> M (Z * Z))
    (categoryID : pyval) (subdicts : list pyval) :
  (forall subdict s s' counts,
     recurse subdict s = (Ok counts, s') ->
     total_categories (stats s') = total_categories (stats s) + fst counts /\
     total_series (stats s') = total_series (stats s) + snd counts) ->
  forall totals st st' r,
    for_categories R recurse categoryID subdicts totals st = (Ok r, st') ->
    total_categories (stats st')
      = total_categories (stats st) + (fst r - fst totals) /\
    total_series (stats st') = total_series (stats st) + (snd r - snd totals).
Proof.
  intros Hrec. induction subdicts as [| subdict rest IH];
    intros totals st st' r H; simpl in H.
  - apply ret_ok in H as [-> ->]. split; lia.
  - apply bind_ok in H as (name & st1 & Hn & H). apply lift_ok in Hn as [_ ->].
    apply bind_ok in H as (id & st1 & Hi & H). apply lift_ok in Hi as [_ ->].
    apply bind_ok in H as ([] & st1 & Hcreate & H).
    apply (Keeps_run same_counts _ _ _ _ (on_tree_counts _)) in Hcreate
      as [Hc1 Hs1].
    apply bind_ok in H as (counts & st2 & Hcall & H).
    apply Hrec in Hcall as [Hc2 Hs2].
    apply IH in H as [Hc3 Hs3]. simpl in Hc3, Hs3. split; lia.
Qed.

Lemma process_category_body_adds (R : Runtime) (C : Config) (api_key : string)
    (recurse : pyval -> M (Z * Z)) (depth : Z) (categoryDict : pyval) :
  (forall subdict s s' counts,
     recurse subdict s = (Ok counts, s') ->
     total_categories (stats s') = total_categories (stats s) + fst counts /\
     total_series (stats s') = total_series (stats s) + snd counts) ->
  forall st st' counts,
    process_category_body R C api_key recurse depth categoryDict st
      = (Ok counts, st') ->
    total_categories (stats st') = total_categories (stats st) + fst counts /\
    total_series (stats st') = total_series (stats st) + snd counts.
Proof.
  intros Hrec st st' counts H. unfold process_category_body in H.
  apply bind_ok in H as (categoryID & st0 & Hid & H). apply lift_ok in Hid as [_ ->].
  apply bind_ok in H as (name & st0 & Hname & H). apply lift_ok in Hname as [_ ->].
  apply bind_ok in H as ([] & st1 & Hemit & H).
  apply (Keeps_run same_counts _ _ _ _ (emit_counts _)) in Hemit as [Hc1 Hs1].
  apply bind_ok in H as (children_series & st2 & Hgs & H).
  apply (Keeps_run same_counts _ _ _ _ (get_rest_data_counts R C api_key _))
    in Hgs as [Hc2 Hs2].
  apply bind_ok in H as (direct & st3 & Hpcs & H).
  apply process_children_series_adds in Hpcs as [Hc3 Hs3].
  unfold process_child_categories in H.
  apply bind_ok in H as (children_categories & st4 & Hgc & H).
  apply (Keeps_run same_counts _ _ _ _ (get_rest_data_counts R C api_key _))
    in Hgc as [Hc4 Hs4].
  apply bind_ok in H as (categories & st4' & Hcats & H).
  apply lift_ok in Hcats as [_ ->].
  apply bind_ok in H as (found & st5 & Hloop & H).
  assert (Hmid : total_categories (stats st5)
                   = total_categories (stats st4) + fst (snd found) /\
                 total_series (stats st5)
                   = total_series (stats st4) + (snd (snd found) - snd direct)).
  { destruct (truthy categories).
    - apply bind_ok in Hloop as (n & s1 & Hlen & Hloop).
      apply lift_ok in Hlen as [_ ->].
      apply bind_ok in Hloop as ([] & s1 & Hinc & Hloop).
      unfold inc_categories, on_stats in Hinc. injection Hinc as <-.
      apply bind_ok in Hloop as (subdicts & s2 & Hiter & Hloop).
      apply lift_ok in Hiter as [_ ->].
      apply bind_ok in Hloop as (totals & s3 & Hfor & Hloop).
      apply ret_ok in Hloop as [-> ->].
      apply (for_categories_adds R recurse categoryID subdicts Hrec) in Hfor
        as [Hc5 Hs5].
      simpl in *. split; lia.
    - apply ret_ok in Hloop as [-> ->]. simpl. split; lia. }
  destruct Hmid as [Hc5 Hs5]. cbv zeta in H.
  apply bind_ok in H as ([] & st6 & Hw1 & H).
  assert (H6 : same_counts st5 st6) by (eapply Keeps_run; [| exact Hw1]; keeps).
  apply bind_ok in H as ([] & st7 & Hw2 & H).
  assert (H7 : same_counts st6 st7) by (eapply Keeps_run; [| exact Hw2]; keeps).
  destruct H6 as [Hc6 Hs6], H7 as [Hc7 Hs7].
  apply ret_ok in H as [-> ->]. simpl. split; lia.
Qed.

Lemma process_category_levels_adds (R : Runtime) (C : Config) (api_key : string)
    (levels : nat) :
  forall depth categoryDict st st' counts,
    process_category_levels R C api_key levels depth categoryDict st
      = (Ok counts, st') ->
    total_categories (stats st') = total_categories (stats st) + fst counts /\
    total_series (stats st') = total_series (stats st) + snd counts.
Proof.
  induction levels as [| k IH]; intros depth categoryDict st st' counts H;
    simpl in H.
  - apply ret_ok in H as [-> ->]. simpl. split; lia.
  - eapply process_category_body_adds; [| exact H].
    intros subdict s s' c Hc. eapply IH. exact Hc.
Qed.

(** X15: the statistics of the application agree with what the traversal
    returns. When a call of [process_category] returns, the counter of
    categories has gone up by the number of descendant categories that
    the call returns and the counter of series by the number of
    descendant series. *)
Theorem statistics_agree_with_rollups (R : Runtime) (C : Config)
    (api_key : string) (depth : Z) (categoryDict : pyval) (st st' : App)
    (ndc nds : Z) :
  process_category R C api_key depth categoryDict st = (Ok (ndc, nds), st') ->
  total_categories (stats st') = total_categories (stats st) + ndc /\
  total_series (stats st') = total_series (stats st) + nds.
Proof.
  intros H.
  exact (process_category_levels_adds R C api_key _ depth categoryDict st st'
           (ndc, nds) H).
Qed.

Lemma statistics_agree_with_rollups_witness :
  let R := Demo.runtime Demo.pages2 Demo.values2 in
  let C := Demo.config 0 5 in
  let st := Demo.start R C true in
  total_categories (stats (snd (traverse R C Demo.key st))) = 2 /\
  total_series (stats (snd (traverse R C Demo.key st))) = 0.
Proof.
  intros R C st.
  assert (Hrun : process_category R C Demo.key 0 (rootCategoryDict C) st
                 = (Ok (2, 0), snd (traverse R C Demo.key st)))
    by (vm_compute; reflexivity).
  exact (statistics_agree_with_rollups R C Demo.key 0 (rootCategoryDict C) st
           _ 2 0 Hrun).
Defined.

(** *** Where the new nodes hang *)

Lemma Keeps_bind_ok {A B} (rel : App -> App -> Prop) `{!Transitive rel}
    (m : M A) (f : A -> M B) :
  Keeps rel m ->
  (forall a st st1, m st = (Ok a, st1) -> rel st1 (snd (f a st1))) ->
  Keeps rel (bind m f).
Proof.
  intros Hm Hf st. unfold bind. specialize (Hm st).
  destruct (m st) as [[a | e] st1] eqn:E; simpl in *; [| exact Hm].
  etransitivity; [exact Hm | eapply Hf; exact E].
Qed.

Lemma Keeps_bind_lift {A B} (rel : App -> App -> Prop) `{!Reflexive rel}
    (r : result A) (f : A -> M B) :
  (forall a, r = Ok a -> Keeps rel (f a)) -> Keeps rel (bind (lift r) f).
Proof.
  intros Hf st. unfold bind, lift. destruct r as [a | e]; simpl.
  - apply Hf. reflexivity.
  - reflexivity.
Qed.

Lemma rel_bind {A B} (rel : App -> App -> Prop) `{!Transitive rel}
    (m : M A) (f : A -> M B) (st : App) :
  rel st (snd (m st)) -> (forall a, Keeps rel (f a)) -> rel st (snd (bind m f st)).
Proof.
  intros Hm Hf. unfold bind.
  destruct (m st) as [[a | e] st1]; simpl in *; [| exact Hm].
  etransitivity; [exact Hm | apply Hf].
Qed.

Lemma Keeps_at {A} (rel : App -> App -> Prop) (m : M A) (st : App) :
  Keeps rel m -> rel st (snd (m st)).
Proof. intros Hm. apply Hm. Qed.

Lemma kept_in (t kept : Tree) (nd : Node) :
  Forall2 node_kept t kept -> nd ∈ t ->
  exists nd', nd' ∈ kept /\ node_kept nd nd'.
Proof.
  intros H Hin. induction H as [| a b t kept Hab H IH].
  - inversion Hin.
  - apply elem_of_cons in Hin as [-> | Hin].
    + exists b. split; [apply elem_of_cons; left; reflexivity | exact Hab].
    + destruct (IH Hin) as (nd' & Hin' & Hk). exists nd'.
      split; [apply elem_of_cons; right; exact Hin' | exact Hk].
Qed.

Lemma below_grows (root : node_id) (t t' : Tree) (nd nd' : Node) :
  grows t t' -> below root t nd -> node_kept nd nd' -> below root t' nd'.
Proof.
  intros (kept & newer & -> & Hk) Hb. revert nd'.
  induction Hb as [nd Hp | nd parent Hin Hp Hb IH]; intros nd' (Hi & Hpr & _).
  - apply below_child. congruence.
  - destruct (kept_in _ _ _ Hk Hin) as (parent' & Hin' & Hkp).
    apply (below_deeper root _ nd' parent').
    + apply elem_of_app. left. exact Hin'.
    + destruct Hkp as (Hi' & _). congruence.
    + apply IH. exact Hkp.
Qed.

Lemma below_under (root c : node_id) (t : Tree) (cn nd : Node) :
  cn ∈ t -> identifier cn = c -> below root t cn -> below c t nd ->
  below root t nd.
Proof.
  intros Hin Hid Hcn Hb. induction Hb as [nd Hp | nd parent Hpin Hp Hb IH].
  - apply (below_deeper root t nd cn); [exact Hin | congruence | exact Hcn].
  - apply (below_deeper root t nd parent); [exact Hpin | exact Hp | exact IH].
Qed.

Lemma kept_trans (t1 t2 t3 : Tree) :
  Forall2 node_kept t1 t2 -> Forall2 node_kept t2 t3 -> Forall2 node_kept t1 t3.
Proof.
  intros H1. revert t3. induction H1 as [| a b t1 t2 Hab H1 IH]; intros t3 H2.
  - inversion H2. constructor.
  - inversion H2 as [| b' c t2' t3' Hbc Hrest]; subst. constructor.
    + eapply node_kept_trans; eassumption.
    + apply IH. exact Hrest.
Qed.

#[export] Instance adds_below_refl (root : node_id) : Reflexive (adds_below root).
Proof.
  intros st. exists (fred_data_tree st), [].
  split; [rewrite app_nil_r; reflexivity |].
  split; [apply kept_refl | apply List.Forall_nil].
Qed.

#[export] Instance adds_below_trans (root : node_id) :
  Transitive (adds_below root).
Proof.
  intros a b c (k1 & n1 & E1 & H1 & F1) (k2 & n2 & E2 & H2 & F2).
  assert (Hg : grows (fred_data_tree b) (fred_data_tree c))
    by (exists k2, n2; split; assumption).
  rewrite E1 in H2.
  apply Forall2_app_inv_l in H2 as (k2a & k2b & Ha & Hb & ->).
  exists k2a, (k2b ++ n2). split; [rewrite E2, app_assoc; reflexivity |]. split.
  - eapply kept_trans; eassumption.
  - apply Forall_app. split; [| exact F2].
    clear Ha E1 E2 F2. induction Hb as [| x y n1 k2b Hxy Hb IH]; [constructor |].
    inversion F1 as [| x' n1' Hx F1']; subst. constructor.
    + eapply below_grows; eassumption.
    + apply IH. exact F1'.
Qed.

Lemma adds_no_node (root : node_id) (st st' : App) :
  fred_data_tree st' = fred_data_tree st -> adds_below root st st'.
Proof.
  intros H. exists (fred_data_tree st), [].
  split; [rewrite app_nil_r; exact H |].
  split; [apply kept_refl | apply List.Forall_nil].
Qed.

Lemma adds_below_under (root c : node_id) (st st' : App) (cn : Node) :
  cn ∈ fred_data_tree st -> identifier cn = c ->
  below root (fred_data_tree st) cn ->
  adds_below c st st' -> adds_below root st st'.
Proof.
  intros Hin Hid Hcn (kept & newer & E & Hk & F).
  exists kept, newer. split; [exact E |]. split; [exact Hk |].
  destruct (kept_in _ _ _ Hk Hin) as (cn' & Hin' & Hkc).
  assert (Hg : grows (fred_data_tree st) (fred_data_tree st'))
    by (exists kept, newer; split; assumption).
  assert (Hcn' : below root (fred_data_tree st') cn')
    by (eapply below_grows; eassumption).
  eapply Forall_impl; [exact F |]. intros nd Hb.
  apply (below_under root c _ cn').
  - rewrite E. apply elem_of_app. left. exact Hin'.
  - destruct Hkc as (Hi & _). congruence.
  - exact Hcn'.
  - exact Hb.
Qed.

Lemma append_tag_kept (nid : node_id) (suffix : string) (t : Tree) :
  Forall2 node_kept t (append_tag nid suffix t).
Proof.
  unfold append_tag. induction t as [| nd t IH]; simpl; constructor; [| exact IH].
  destruct (has_id nid nd); [| apply node_kept_refl].
  repeat split. simpl. apply prefix_append.
Qed.

Lemma emit_below (root : node_id) (e : event) : Keeps (adds_below root) (emit e).
Proof. intros st. apply adds_no_node. reflexivity. Qed.

Lemma tick_below (root : node_id) : Keeps (adds_below root) tick.
Proof. intros st. apply adds_no_node. reflexivity. Qed.

Lemma on_stats_below (root : node_id) (f : AppStats -> AppStats) :
  Keeps (adds_below root) (on_stats f).
Proof. intros st. apply adds_no_node. reflexivity. Qed.

Lemma on_cacher_below {A} (root : node_id)
    (f : CacheTool.Cacher -> result A * CacheTool.Cacher) :
  Keeps (adds_below root) (on_cacher f).
Proof.
  intros st. apply adds_no_node. unfold on_cacher.
  destruct (f (APICacher st)). reflexivity.
Qed.

(** A node created with the parent [root] hangs below [root]. *)
Lemma create_below (root tag : string) (identifier : option string) :
  Keeps (adds_below (Named root))
        (on_tree (create_node tag identifier (Some root))).
Proof.
  intros st. unfold on_tree, create_node.
  destruct (bool_decide _); simpl; [apply adds_no_node; reflexivity |].
  destruct (bool_decide _); simpl; [| apply adds_no_node; reflexivity].
  eexists (fred_data_tree st), [_]. split; [reflexivity |].
  split; [apply kept_refl |].
  apply List.Forall_cons; [apply below_child; reflexivity | apply List.Forall_nil].
Qed.

(** The node that a successful call has created is in the tree. *)
Lemma created_node (tag nid parent : string) (st st1 : App) :
  on_tree (create_node tag (Some nid) (Some parent)) st = (Ok tt, st1) ->
  exists nd, nd ∈ fred_data_tree st1 /\ identifier nd = Named nid /\
             below (Named parent) (fred_data_tree st1) nd.
Proof.
  unfold on_tree, create_node.
  destruct (bool_decide _); simpl; [discriminate |].
  destruct (bool_decide _); simpl; [| discriminate].
  intros H. injection H as <-. simpl.
  exists (mkNode (Named nid) tag (Some (Named parent))).
  split; [apply elem_of_app; right; apply elem_of_cons; left; reflexivity |].
  split; [reflexivity | apply below_child; reflexivity].
Qed.

Lemma append_to_tag_below (root : node_id) (nid suffix : string) :
  Keeps (adds_below root) (append_to_tag nid suffix).
Proof.
  intros st. unfold append_to_tag, on_tree.
  destruct (get_node (Named nid) (fred_data_tree st)); simpl.
  - exists (append_tag (Named nid) suffix (fred_data_tree st)), [].
    split; [rewrite app_nil_r; reflexivity |].
    split; [apply append_tag_kept | apply List.Forall_nil].
  - apply adds_no_node. reflexivity.
Qed.

#[local] Hint Resolve emit_below tick_below on_stats_below on_cacher_below
  create_below append_to_tag_below : keeps.

Lemma get_rest_data_below (R : Runtime) (C : Config) (api_key rest_path : string)
    (root : node_id) :
  Keeps (adds_below root) (get_rest_data R C api_key rest_path).
Proof.
  unfold get_rest_data, make_caching_request, make_api_request,
    read_cached_data, write_cached_data, sleep, inc_server_calls.
  keeps.
Qed.

(** The header of a series hangs below the category, and the notes and the
    attributes of the series hang below the header. *)
Lemma process_series_below (R : Runtime) (series categoryID : pyval) :
  Keeps (adds_below (Named (py_str R categoryID)))
        (process_series R series categoryID).
Proof.
  unfold process_series.
  apply Keeps_bind; [typeclasses eauto | keeps |]. intros title.
  apply Keeps_bind; [typeclasses eauto | keeps |]. intros id. cbv zeta.
  apply Keeps_bind_ok; [typeclasses eauto | apply create_below |].
  intros [] st st1 Hcreate.
  destruct (created_node _ _ _ _ _ Hcreate) as (header & Hin & Hid & Hb).
  eapply adds_below_under; [exact Hin | exact Hid | exact Hb |].
  apply Keeps_at. keeps.
Qed.

Lemma for_series_below (R : Runtime) (categoryID : pyval) (items : list pyval) :
  forall n, Keeps (adds_below (Named (py_str R categoryID)))
                  (for_series R items categoryID n).
Proof.
  induction items as [| series rest IH]; intros n; simpl.
  - keeps.
  - apply Keeps_bind; [typeclasses eauto | apply process_series_below |].
    intros _. apply IH.
Qed.

Lemma process_children_series_below (R : Runtime) (C : Config)
    (children_series categoryID : pyval) :
  Keeps (adds_below (Named (py_str R categoryID)))
        (process_children_series R C children_series categoryID).
Proof.
  unfold process_children_series, inc_series.
  pose proof (for_series_below R categoryID) as Hfor.
  keeps.
Qed.

(** The node of a child category hangs below the category, and what the
    call on the child adds hangs below the node of the child. *)
Lemma for_categories_below (R : Runtime) (recurse : pyval -> M (Z * Z))
    (categoryID : pyval) (subdicts : list pyval) :
  (forall subdict id,
     py_subscript subdict "id" = Ok id ->
     Keeps (adds_below (Named (py_str R id))) (recurse subdict)) ->
  forall totals,
    Keeps (adds_below (Named (py_str R categoryID)))
          (for_categories R recurse categoryID subdicts totals).
Proof.
  intros Hrec. induction subdicts as [| subdict rest IH]; intros totals; simpl.
  - keeps.
  - apply Keeps_bind; [typeclasses eauto | keeps |]. intros name.
    apply Keeps_bind_lift; [typeclasses eauto |]. intros id Hid. cbv zeta.
    apply Keeps_bind_ok; [typeclasses eauto | apply create_below |].
    intros [] st st1 Hcreate.
    destruct (created_node _ _ _ _ _ Hcreate) as (child & Hin & Hcid & Hb).
    apply rel_bind; [typeclasses eauto | | intros counts; apply IH].
    eapply adds_below_under; [exact Hin | exact Hcid | exact Hb |].
    apply Keeps_at. apply Hrec. exact Hid.
Qed.

Lemma process_category_body_below (R : Runtime) (C : Config) (api_key : string)
    (recurse : pyval -> M (Z * Z)) (depth : Z) (categoryDict categoryID : pyval) :
  (forall subdict id,
     py_subscript subdict "id" = Ok id ->
     Keeps (adds_below (Named (py_str R id))) (recurse subdict)) ->
  py_subscript categoryDict "id" = Ok categoryID ->
  Keeps (adds_below (Named (py_str R categoryID)))
        (process_category_body R C api_key recurse depth categoryDict).
Proof.
  intros Hrec Hid. unfold process_category_body.
  apply Keeps_bind_lift; [typeclasses eauto |]. intros id Hid'.
  rewrite Hid in Hid'. injection Hid' as <-.
  unfold process_child_categories, get_children_series, get_child_categories,
    inc_categories.
  pose proof (fun p => get_rest_data_below R C api_key p
                         (Named (py_str R categoryID))) as Hget.
  pose proof (process_children_series_below R C) as Hpcs.
  pose proof (for_categories_below R recurse categoryID) as Hfor.
  keeps.
Qed.

Lemma process_category_levels_below (R : Runtime) (C : Config) (api_key : string)
    (levels : nat) :
  forall depth categoryDict categoryID,
    py_subscript categoryDict "id" = Ok categoryID ->
    Keeps (adds_below (Named (py_str R categoryID)))
          (process_category_levels R C api_key levels depth categoryDict).
Proof.
  induction levels as [| k IH]; intros depth categoryDict categoryID Hid; simpl.
  - keeps.
  - apply process_category_body_below; [| exact Hid].
    intros subdict id Hsub. apply IH. exact Hsub.
Qed.

(** X16: the tree mirrors the hierarchy. Every node that a call of
    [process_category] adds to the tree hangs below the node of the
    category of the call: its parent is that node, or a node that hangs
    below it. The nodes that were in the tree stay in front of the new
    ones. This holds whether the call returns or raises. *)
Theorem new_nodes_hang_below_the_category (R : Runtime) (C : Config)
    (api_key : string) (depth : Z) (categoryDict categoryID : pyval) (st : App) :
  py_subscript categoryDict "id" = Ok categoryID ->
  exists kept newer,
    fred_data_tree (snd (process_category R C api_key depth categoryDict st))
      = kept ++ newer /\
    Forall2 node_kept (fred_data_tree st) kept /\
    Forall (below (Named (py_str R categoryID))
                  (fred_data_tree
                     (snd (process_category R C api_key depth categoryDict st))))
           newer.
Proof.
  intros Hid.
  exact (process_category_levels_below R C api_key _ depth categoryDict
           categoryID Hid st).
Qed.

Lemma new_nodes_hang_below_the_category_witness :
  let R := Demo.runtime Demo.pages2 Demo.values2 in
  let C := Demo.config 1 5 in
  let st := Demo.start R C true in
  adds_below (Named "0") st (snd (traverse R C Demo.key st)).
Proof.
  intros R C st.
  apply (new_nodes_hang_below_the_category R C Demo.key 0 (rootCategoryDict C)
           (PInt 0) st).
  reflexivity.
Defined.

(** *** Identifiers that are already in the tree *)

Lemma get_node_in (nid : node_id) (t : Tree) :
  is_Some (get_node nid t) <-> exists nd, nd ∈ t /\ identifier nd = nid.
Proof.
  unfold get_node. induction t as [| a t IH]; simpl.
  - split; [intros [x Hx]; discriminate | intros (nd & Hin & _); inversion Hin].
  - unfold has_id at 1. destruct (bool_decide (identifier a = nid)) eqn:E.
    + apply bool_decide_eq_true in E. split.
      * intros _. exists a. split; [apply elem_of_cons; left; reflexivity | exact E].
      * intros _. eexists. reflexivity.
    + apply bool_decide_eq_false in E. rewrite IH. split.
      * intros (nd & Hin & Hid). exists nd.
        split; [apply elem_of_cons; right; exact Hin | exact Hid].
      * intros (nd & Hin & Hid). apply elem_of_cons in Hin as [-> | Hin];
          [contradiction | exists nd; split; assumption].
Qed.

Lemma node_stays (nid : node_id) (t t' : Tree) :
  grows t t' -> is_Some (get_node nid t) -> is_Some (get_node nid t').
Proof.
  intros (kept & newer & -> & Hk) H. apply get_node_in in H as (nd & Hin & Hid).
  destruct (kept_in _ _ _ Hk Hin) as (nd' & Hin' & (Hi & _)).
  apply get_node_in. exists nd'.
  split; [apply elem_of_app; left; exact Hin' | congruence].
Qed.

Lemma has_node_kept {A} (nid : string) (m : M A) :
  Keeps tree_grows m -> forall st, has_node nid st -> has_node nid (snd (m st)).
Proof. intros Hm st. apply node_stays. apply Hm. Qed.

Lemma has_node_run {A} (nid : string) (m : M A) (st st' : App) (r : result A) :
  Keeps tree_grows m -> m st = (r, st') -> has_node nid st -> has_node nid st'.
Proof.
  intros Hm Hrun. pose proof (has_node_kept nid m Hm st) as H.
  rewrite Hrun in H. exact H.
Qed.

Lemma create_existing (tag nid : string) (parent : option string) (st : App) :
  has_node nid st ->
  fst (on_tree (create_node tag (Some nid) parent) st) = Raise DuplicatedNodeIdError.
Proof.
  intros H. unfold on_tree, create_node.
  rewrite bool_decide_eq_true_2 by exact H. reflexivity.
Qed.

Lemma for_categories_stops (R : Runtime) (recurse : pyval -> M (Z * Z))
    (categoryID : pyval) (subdicts : list pyval) (subdict id : pyval) :
  (forall sd, Keeps tree_grows (recurse sd)) ->
  subdict ∈ subdicts -> py_subscript subdict "id" = Ok id ->
  forall totals st,
    has_node (py_str R id) st ->
    exists e, fst (for_categories R recurse categoryID subdicts totals st) = Raise e.
Proof.
  intros Hrec Hin Hid.
  induction subdicts as [| head rest IH]; intros totals st Hnode;
    [inversion Hin |].
  simpl. unfold bind at 1, lift at 1.
  destruct (py_subscript head "name") as [name | e]; [| eexists; reflexivity].
  unfold bind at 1, lift at 1.
  destruct (py_subscript head "id") as [id' | e] eqn:Hid'; [| eexists; reflexivity].
  cbv zeta. unfold bind at 1.
  destruct (on_tree _ st) as [[[] | e] st1] eqn:Hcreate; [| eexists; reflexivity].
  apply elem_of_cons in Hin as [-> | Hin].
  - rewrite Hid in Hid'. injection Hid' as <-.
    pose proof (create_existing ("[#" +:+ py_str R id +:+ "] " +:+ py_str R name)
                  (py_str R id) (Some (py_str R categoryID)) st Hnode) as Hdup.
    rewrite Hcreate in Hdup. discriminate.
  - unfold bind at 1.
    destruct (recurse head st1) as [[counts | e] st2] eqn:Hcall;
      [| eexists; reflexivity].
    apply IH; [exact Hin |].
    apply (has_node_run _ _ _ _ _ (Hrec head) Hcall).
    apply (has_node_run _ _ _ _ _ (create_grows _ _ _) Hcreate).
    exact Hnode.
Qed.

(** X17: a listed child whose identifier the tree already has stops the
    loop over the child categories. When the text of the identifier of
    one of the listed children names a node of the tree, the loop of
    [process_category] raises: no count is returned for the category. *)
Theorem child_already_in_tree_stops_the_loop (R : Runtime) (C : Config)
    (api_key : string) (depth : Z) (categoryID : pyval) (subdicts : list pyval)
    (totals : Z * Z) (subdict id : pyval) (st : App) :
  subdict ∈ subdicts ->
  py_subscript subdict "id" = Ok id ->
  is_Some (get_node (Named (py_str R id)) (fred_data_tree st)) ->
  exists e,
    fst (for_categories R (process_category R C api_key (depth + 1)) categoryID
           subdicts totals st) = Raise e.
Proof.
  intros Hin Hid Hnode.
  apply (for_categories_stops R _ categoryID subdicts subdict id); try assumption.
  intros sd. unfold process_category.
  exact (process_category_levels_grows R C api_key _ (depth + 1) sd).
Qed.

Lemma child_already_in_tree_stops_the_loop_witness :
  let R := Demo.offline in
  let C := Demo.config 1 5 in
  exists e,
    fst (for_categories R (process_category R C Demo.key (0 + 1)) (PInt 0)
           [Demo.category 7 "seven"; Demo.category 0 "again"] (2, 0)
           (Demo.start R C true)) = Raise e.
Proof.
  intros R C.
  apply (child_already_in_tree_stops_the_loop R C Demo.key 0 (PInt 0) _ (2, 0)
           (Demo.category 0 "again") (PInt 0)).
  - apply elem_of_cons. right. apply elem_of_cons. left. reflexivity.
  - reflexivity.
  - vm_compute. eexists. reflexivity.
Defined.

(** *** The exceptions of a traversal *)

Ltac expected := unfold expected_failure; auto 8.

Lemma fails_ret {A} (pre : App -> Prop) (a : A) : fails_only pre (ret a).
Proof. intros st e _ H. discriminate. Qed.

Lemma fails_lift {A} (pre : App -> Prop) (r : result A) :
  (forall e, r = Raise e -> expected_failure e) -> fails_only pre (lift r).
Proof. intros Hr st e _ H. apply Hr. exact H. Qed.

Lemma fails_bind {A B} (pre : App -> Prop) (m : M A) (f : A -> M B) :
  fails_only pre m ->
  (forall st, pre st -> pre (snd (m st))) ->
  (forall a, fails_only pre (f a)) ->
  fails_only pre (bind m f).
Proof.
  intros Hm Hp Hf st e Hpre. unfold bind.
  specialize (Hm st). specialize (Hp st Hpre).
  destruct (m st) as [[a | e'] st1]; simpl in *.
  - apply Hf. exact Hp.
  - intros [= <-]. apply Hm; [exact Hpre | reflexivity].
Qed.

Lemma fails_bind_ok {A B} (pre : App -> Prop) (m : M A) (f : A -> M B) :
  fails_only pre m ->
  (forall a st st1 e,
     pre st -> m st = (Ok a, st1) -> fst (f a st1) = Raise e ->
     expected_failure e) ->
  fails_only pre (bind m f).
Proof.
  intros Hm Hf st e Hpre. unfold bind. specialize (Hm st).
  destruct (m st) as [[a | e'] st1] eqn:E; simpl in *.
  - apply (Hf a st st1 e Hpre E).
  - intros [= <-]. apply Hm; [exact Hpre | reflexivity].
Qed.

Lemma fails_bind_lift {A B} (pre : App -> Prop) (r : result A) (f : A -> M B) :
  (forall e, r = Raise e -> expected_failure e) ->
  (forall a, r = Ok a -> fails_only pre (f a)) ->
  fails_only pre (bind (lift r) f).
Proof.
  intros Hr Hf st e Hpre. unfold bind, lift. destruct r as [a | e']; simpl.
  - apply Hf; [reflexivity | exact Hpre].
  - intros [= <-]. apply Hr. reflexivity.
Qed.

Lemma fails_when (pre : App -> Prop) (b : bool) (m : M unit) :
  fails_only pre m -> fails_only pre (when b m).
Proof. intros Hm. destruct b; [exact Hm | apply fails_ret]. Qed.

Lemma fails_at {A} (pre : App -> Prop) (m : M A) (st : App) (e : exn) :
  fails_only pre m -> pre st -> fst (m st) = Raise e -> expected_failure e.
Proof. intros Hm. apply Hm. Qed.

Lemma py_get_fails (v : pyval) (key : string) (e : exn) :
  py_get v key = Raise e -> expected_failure e.
Proof. destruct v; simpl; intros [= <-]; expected. Qed.

Lemma py_subscript_fails (v : pyval) (key : string) (e : exn) :
  py_subscript v key = Raise e -> expected_failure e.
Proof.
  destruct v as [| | | | | d]; simpl; try (intros [= <-]; expected).
  destruct (d !! key); intros [= <-]; expected.
Qed.

Lemma py_int_fails (v : pyval) (e : exn) :
  py_int v = Raise e -> expected_failure e.
Proof. destruct v; simpl; intros [= <-]; expected. Qed.

Lemma py_len_fails (v : pyval) (e : exn) :
  py_len v = Raise e -> expected_failure e.
Proof. destruct v; simpl; intros [= <-]; expected. Qed.

Lemma py_iter_fails (v : pyval) (e : exn) :
  py_iter v = Raise e -> expected_failure e.
Proof. destruct v; simpl; intros [= <-]; expected. Qed.

Lemma py_slice_to_fails (v : pyval) (n : Z) (e : exn) :
  py_slice_to v n = Raise e -> expected_failure e.
Proof. destruct v; simpl; intros [= <-]; expected. Qed.

Lemma notes_label_fails (R : Runtime) (notes : pyval) (e : exn) :
  notes_label R notes = Raise e -> expected_failure e.
Proof.
  unfold notes_label.
  destruct notes; cbv zeta; try (destruct (Nat.leb _ _); discriminate);
    intros [= <-]; expected.
Qed.

Lemma join_attributes_fails (attributes : list pyval) (e : exn) :
  join_attributes attributes = Raise e -> expected_failure e.
Proof.
  induction attributes as [| a rest IH]; simpl; [discriminate |].
  destruct a; try (intros [= <-]; expected).
  destruct rest as [| b rest']; [discriminate |].
  destruct (join_attributes (b :: rest')) as [t | e']; [discriminate |].
  intros [= <-]. apply IH. reflexivity.
Qed.

Lemma fails_py_get (pre : App -> Prop) (v : pyval) (key : string) :
  fails_only pre (lift (py_get v key)).
Proof. apply fails_lift, py_get_fails. Qed.

Lemma fails_py_subscript (pre : App -> Prop) (v : pyval) (key : string) :
  fails_only pre (lift (py_subscript v key)).
Proof. apply fails_lift, py_subscript_fails. Qed.

Lemma fails_py_int (pre : App -> Prop) (v : pyval) :
  fails_only pre (lift (py_int v)).
Proof. apply fails_lift, py_int_fails. Qed.

Lemma fails_py_len (pre : App -> Prop) (v : pyval) :
  fails_only pre (lift (py_len v)).
Proof. apply fails_lift, py_len_fails. Qed.

Lemma fails_py_iter (pre : App -> Prop) (v : pyval) :
  fails_only pre (lift (py_iter v)).
Proof. apply fails_lift, py_iter_fails. Qed.

Lemma fails_py_slice_to (pre : App -> Prop) (v : pyval) (n : Z) :
  fails_only pre (lift (py_slice_to v n)).
Proof. apply fails_lift, py_slice_to_fails. Qed.

Lemma fails_notes_label (pre : App -> Prop) (R : Runtime) (notes : pyval) :
  fails_only pre (lift (notes_label R notes)).
Proof. apply fails_lift, notes_label_fails. Qed.

Lemma fails_join_attributes (pre : App -> Prop) (attributes : list pyval) :
  fails_only pre (lift (join_attributes attributes)).
Proof. apply fails_lift, join_attributes_fails. Qed.

Lemma fails_emit (pre : App -> Prop) (e : event) : fails_only pre (emit e).
Proof. intros st x _ H. discriminate. Qed.

Lemma fails_on_stats (pre : App -> Prop) (f : AppStats -> AppStats) :
  fails_only pre (on_stats f).
Proof. intros st x _ H. discriminate. Qed.

(** With its parent in the tree, a new node can only fail for its own
    identifier. *)
Lemma fails_create (parent tag : string) (identifier : option string) :
  fails_only (has_node parent)
             (on_tree (create_node tag identifier (Some parent))).
Proof.
  intros st e Hpre. unfold on_tree, create_node.
  destruct (bool_decide _); simpl; [intros [= <-]; expected |].
  rewrite bool_decide_eq_true_2 by exact Hpre. discriminate.
Qed.

Lemma fails_append_to_tag (pre : App -> Prop) (nid suffix : string) :
  fails_only pre (append_to_tag nid suffix).
Proof.
  intros st e _. unfold append_to_tag, on_tree.
  destruct (get_node _ _); simpl; [discriminate | intros [= <-]; expected].
Qed.

(** A request raises nothing but the exit of its test. *)
Lemma fails_get_rest_data (pre : App -> Prop) (R : Runtime) (C : Config)
    (api_key rest_path : string) :
  fails_only pre (get_rest_data R C api_key rest_path).
Proof.
  intros st e _. unfold get_rest_data. cbv zeta.
  destruct (contains _ _); [intros [= <-]; expected |].
  unfold try_except.
  destruct (bind _ _ st) as [[a | e'] st1]; discriminate.
Qed.

Create HintDb fails.

#[local] Hint Resolve fails_py_get fails_py_subscript fails_py_int fails_py_len
  fails_py_iter fails_py_slice_to fails_notes_label fails_join_attributes
  fails_emit fails_on_stats fails_create fails_append_to_tag
  fails_get_rest_data : fails.

Ltac fails_step :=
  first
    [ assumption
    | solve [auto with fails]
    | apply fails_ret
    | apply fails_when
    | apply fails_bind; [| apply has_node_kept; solve [keeps] | intros ?]
    | match goal with
      | |- fails_only _ (if ?b then _ else _) => destruct b
      | |- fails_only _ (match ?x with _ => _ end) => destruct x
      end ].
Ltac fails := repeat fails_step.

Lemma process_series_fails (R : Runtime) (series categoryID : pyval) :
  fails_only (has_node (py_str R categoryID)) (process_series R series categoryID).
Proof.
  unfold process_series.
  apply fails_bind; [fails | apply has_node_kept; solve [keeps] |]. intros title.
  apply fails_bind; [fails | apply has_node_kept; solve [keeps] |]. intros id.
  cbv zeta.
  apply fails_bind_ok; [apply fails_create |].
  intros [] st st1 e _ Hcreate.
  destruct (created_node _ _ _ _ _ Hcreate) as (header & Hin & Hid & _).
  apply fails_at with (pre := has_node (py_str R categoryID +:+ "/" +:+ py_str R id)).
  - fails.
  - apply get_node_in. exists header. split; assumption.
Qed.

Lemma for_series_fails (R : Runtime) (categoryID : pyval) (items : list pyval) :
  forall n, fails_only (has_node (py_str R categoryID))
                       (for_series R items categoryID n).
Proof.
  induction items as [| series rest IH]; intros n; simpl.
  - fails.
  - apply fails_bind; [apply process_series_fails | | intros _; apply IH].
    apply has_node_kept. apply process_series_grows.
Qed.

Lemma process_children_series_fails (R : Runtime) (C : Config)
    (children_series categoryID : pyval) :
  fails_only (has_node (py_str R categoryID))
             (process_children_series R C children_series categoryID).
Proof.
  unfold process_children_series, inc_series.
  pose proof (for_series_fails R categoryID) as Hfor.
  pose proof (for_series_grows R categoryID) as Hgrows.
  fails.
Qed.

Lemma for_categories_fails (R : Runtime) (recurse : pyval -> M (Z * Z))
    (categoryID : pyval) (subdicts : list pyval) :
  (forall subdict, Keeps tree_grows (recurse subdict)) ->
  (forall subdict id,
     py_subscript subdict "id" = Ok id ->
     fails_only (has_node (py_str R id)) (recurse subdict)) ->
  forall totals,
    fails_only (has_node (py_str R categoryID))
               (for_categories R recurse categoryID subdicts totals).
Proof.
  intros Hgrows Hrec.
  induction subdicts as [| subdict rest IH]; intros totals; simpl.
  - fails.
  - apply fails_bind; [fails | apply has_node_kept; solve [keeps] |]. intros name.
    apply fails_bind_lift; [apply py_subscript_fails |]. intros id Hid. cbv zeta.
    apply fails_bind_ok; [apply fails_create |].
    intros [] st st1 e Hpre Hcreate.
    destruct (created_node _ _ _ _ _ Hcreate) as (child & Hin & Hcid & _).
    assert (Hchild : has_node (py_str R id) st1)
      by (apply get_node_in; exists child; split; assumption).
    assert (Hpre1 : has_node (py_str R categoryID) st1)
      by (exact (has_node_run _ _ _ _ _ (create_grows _ _ _) Hcreate Hpre)).
    unfold bind at 1.
    destruct (recurse subdict st1) as [[counts | e'] st2] eqn:Hcall; simpl.
    + apply IH. exact (has_node_run _ _ _ _ _ (Hgrows subdict) Hcall Hpre1).
    + intros [= <-]. apply (Hrec subdict id Hid st1 e' Hchild).
      rewrite Hcall. reflexivity.
Qed.

Lemma process_category_body_fails (R : Runtime) (C : Config) (api_key : string)
    (recurse : pyval -> M (Z * Z)) (depth : Z) (categoryDict categoryID : pyval) :
  (forall subdict, Keeps tree_grows (recurse subdict)) ->
  (forall subdict id,
     py_subscript subdict "id" = Ok id ->
     fails_only (has_node (py_str R id)) (recurse subdict)) ->
  py_subscript categoryDict "id" = Ok categoryID ->
  fails_only (has_node (py_str R categoryID))
             (process_category_body R C api_key recurse depth categoryDict).
Proof.
  intros Hgrows Hrec Hid. unfold process_category_body.
  apply fails_bind_lift; [apply py_subscript_fails |]. intros id Hid'.
  rewrite Hid in Hid'. injection Hid' as <-.
  unfold process_child_categories, get_children_series, get_child_categories,
    inc_categories.
  pose proof (get_rest_data_grows R C api_key) as Hget.
  pose proof (process_children_series_grows R C) as Hpcs.
  pose proof (for_categories_grows R recurse) as Hfor.
  pose proof (process_children_series_fails R C) as Hpcsf.
  pose proof (for_categories_fails R recurse categoryID) as Hforf.
  fails.
Qed.

Lemma process_category_levels_fails (R : Runtime) (C : Config) (api_key : string)
    (levels : nat) :
  forall depth categoryDict categoryID,
    py_subscript categoryDict "id" = Ok categoryID ->
    fails_only (has_node (py_str R categoryID))
               (process_category_levels R C api_key levels depth categoryDict).
Proof.
  induction levels as [| k IH]; intros depth categoryDict categoryID Hid; simpl.
  - fails.
  - apply process_category_body_fails; [| | exact Hid].
    + intros subdict. apply process_category_levels_grows.
    + intros subdict id Hsub. apply IH. exact Hsub.
Qed.

(** X18: the ways in which a traversal can fail. When the node of the
    category is in the tree, a call of [process_category] that raises
    raises [KeyError], [TypeError] or [AttributeError] for data that is
    not shaped as expected, [DuplicatedNodeIdError] for an identifier that
    the tree already has, or the exit with the code -999 of the test for
    the credential parameter. It never asks for a parent that the tree
    does not have or for a second root, and no failure of a request or of
    the decoding of a response gets out of it. *)
Theorem traversal_fails_only_as_expected (R : Runtime) (C : Config)
    (api_key : string) (depth : Z) (categoryDict categoryID : pyval) (st : App)
    (e : exn) :
  py_subscript categoryDict "id" = Ok categoryID ->
  is_Some (get_node (Named (py_str R categoryID)) (fred_data_tree st)) ->
  fst (process_category R C api_key depth categoryDict st) = Raise e ->
  e = KeyError \/ e = TypeError \/ e = AttributeError \/
  e = DuplicatedNodeIdError \/ e = SystemExit (-999).
Proof.
  intros Hid Hnode Hrun.
  exact (process_category_levels_fails R C api_key _ depth categoryDict
           categoryID Hid st e Hnode Hrun).
Qed.

Lemma traversal_fails_only_as_expected_witness :
  let R := Demo.runtime Samples.pages_again Samples.values_again in
  let C := Demo.config 1 5 in
  let st := Demo.start R C true in
  fst (traverse R C Demo.key st) = Raise DuplicatedNodeIdError /\
  expected_failure DuplicatedNodeIdError.
Proof.
  intros R C st.
  assert (Hrun : fst (process_category R C Demo.key 0 (rootCategoryDict C) st)
                 = Raise DuplicatedNodeIdError) by (vm_compute; reflexivity).
  split; [exact Hrun |].
  apply (traversal_fails_only_as_expected R C Demo.key 0 (rootCategoryDict C)
           (PInt 0) st DuplicatedNodeIdError).
  - reflexivity.
  - vm_compute. eexists. reflexivity.
  - exact Hrun.
Defined.

End RunProofs.

(** ** The labels of the series *)

Module LabelProofs.
Import FRED_API RunSpec.

Lemma str_take_length (n : nat) (s : string) :
  (String.length (str_take n s) <= n)%nat.
Proof.
  revert s. induction n as [| k IH]; intros s; destruct s as [| c t]; simpl;
    try lia.
  specialize (IH t). lia.
Qed.

Lemma str_take_all (n : nat) (s : string) :
  (String.length s <= n)%nat -> str_take n s = s.
Proof.
  revert s. induction n as [| k IH]; intros s H; destruct s as [| c t];
    simpl in *; try reflexivity; try lia.
  rewrite IH; [reflexivity | lia].
Qed.

Lemma str_take_single_line (n : nat) (s : string) :
  single_line s -> single_line (str_take n s).
Proof.
  unfold single_line. revert s.
  induction n as [| k IH]; intros s H; destruct s as [| c t]; simpl;
    try apply List.Forall_nil.
  simpl in H. inversion H; subst. apply List.Forall_cons; [assumption |].
  apply IH. assumption.
Qed.

Lemma collapse_length (in_run : bool) (s : string) :
  (String.length (collapse_newlines in_run s) <= String.length s)%nat.
Proof.
  revert in_run. induction s as [| c t IH]; intros in_run; simpl; [lia |].
  destruct (is_newline c); [destruct in_run |]; simpl.
  - specialize (IH true). lia.
  - specialize (IH true). lia.
  - specialize (IH false). lia.
Qed.

Lemma collapse_single_line (in_run : bool) (s : string) :
  single_line (collapse_newlines in_run s).
Proof.
  unfold single_line. revert in_run.
  induction s as [| c t IH]; intros in_run; simpl; [apply List.Forall_nil |].
  destruct (is_newline c) eqn:Hc; [destruct in_run |]; simpl.
  - apply IH.
  - apply List.Forall_cons; [reflexivity | apply IH].
  - apply List.Forall_cons; [exact Hc | apply IH].
Qed.

Lemma collapse_nothing (s : string) :
  single_line s -> collapse_newlines false s = s.
Proof.
  unfold single_line. induction s as [| c t IH]; intros H; simpl;
    [reflexivity |].
  simpl in H. inversion H as [| c' l Hc Ht]; subst. rewrite Hc, IH;
    [reflexivity | exact Ht].
Qed.

(** X19: the label made from the notes of a series is one short line.
    Whatever text the notes are, the label is a double quote, an excerpt
    of at most 100 characters without a line break, and then either the
    closing quote, or three dots, the closing quote and in brackets a
    number between 0 and 9899 of characters left out. *)
Theorem notes_label_is_one_short_line (R : Runtime) (s : string) :
  exists excerpt rest,
    notes_label R (PStr s) = Ok (dquote +:+ excerpt +:+ rest) /\
    (String.length excerpt <= 100)%nat /\
    single_line excerpt /\
    (rest = dquote \/
     exists n, 0 <= n <= 9899 /\
               rest = "..." +:+ dquote +:+ " [+" +:+ py_str R (PInt n) +:+ "]").
Proof.
  unfold notes_label. cbv zeta.
  pose proof (collapse_length false (str_take (Z.to_nat 9999) s)) as Hlen.
  pose proof (str_take_length (Z.to_nat 9999) s) as Hcut.
  pose proof (collapse_single_line false (str_take (Z.to_nat 9999) s)) as Hline.
  set (text := collapse_newlines false (str_take (Z.to_nat 9999) s)) in *.
  destruct (Nat.leb 100 (String.length text)) eqn:Hlong.
  - exists (str_take 100 text). eexists. split; [reflexivity |].
    split; [apply str_take_length |].
    split; [apply str_take_single_line; exact Hline |].
    right. eexists. split; [| reflexivity].
    apply Nat.leb_le in Hlong. lia.
  - exists text, dquote. split; [reflexivity |].
    apply Nat.leb_gt in Hlong.
    split; [lia |]. split; [exact Hline | left; reflexivity].
Qed.

(** X20: short notes are shown in full. Notes of fewer than 100
    characters without a line break are labelled by themselves between
    double quotes. *)
Theorem short_notes_are_quoted_in_full (R : Runtime) (s : string) :
  single_line s -> (String.length s < 100)%nat ->
  notes_label R (PStr s) = Ok (dquote +:+ s +:+ dquote).
Proof.
  intros Hline Hshort. unfold notes_label. cbv zeta.
  rewrite (str_take_all (Z.to_nat 9999) s) by lia.
  rewrite (collapse_nothing s Hline).
  destruct (Nat.leb 100 (String.length s)) eqn:Hlong; [| reflexivity].
  apply Nat.leb_le in Hlong. lia.
Qed.

Lemma short_notes_are_quoted_in_full_witness :
  notes_label Demo.offline (PStr "Monthly, in percent")
    = Ok (dquote +:+ "Monthly, in percent" +:+ dquote).
Proof.
  apply (short_notes_are_quoted_in_full Demo.offline "Monthly, in percent").
  - unfold single_line. simpl. repeat constructor.
  - simpl. lia.
Defined.

End LabelProofs.

(** ** The run that [main] starts *)

Module MainProofs.
Import treelib FRED_API RunSpec RunProofs.

Lemma initialize_tree_root (R : Runtime) (C : Config) :
  initialize_tree R C
  = [mkNode (Named (py_str R (ROOT_CATEGORY C)))
            ("FRED® Services API at " +:+ BASE_URL C) None].
Proof. reflexivity. Qed.

Lemma root_id (C : Config) :
  py_subscript (rootCategoryDict C) "id" = Ok (ROOT_CATEGORY C).
Proof.
  unfold rootCategoryDict, py_subscript.
  rewrite lookup_insert_ne by discriminate. rewrite lookup_insert_eq. reflexivity.
Qed.

(** X21: the run that [main] starts on a freshly initialized application.
    Whatever the server answers and whether the traversal returns or
    raises, the tree is then the root node of [initialize_tree], named
    after the root category and labelled with the title that starts with
    the address of the service, followed by nodes that all hang below it.
    When the traversal returns, the statistics of the application hold
    the two numbers it returns. When it raises, it raises one of the
    expected exceptions. *)
Theorem run_of_a_fresh_application (R : Runtime) (C : Config)
    (api_key : string) (cacher : CacheTool.Cacher) :
  let run := traverse R C api_key (initialized R C cacher) in
  (exists root newer,
     fred_data_tree (snd run) = root :: newer /\
     identifier root = Named (py_str R (ROOT_CATEGORY C)) /\
     predecessor root = None /\
     String.prefix ("FRED® Services API at " +:+ BASE_URL C) (tag root) = true /\
     Forall (below (Named (py_str R (ROOT_CATEGORY C))) (fred_data_tree (snd run)))
            newer) /\
  (forall ndc nds,
     fst run = Ok (ndc, nds) ->
     total_categories (stats (snd run)) = ndc /\
     total_series (stats (snd run)) = nds) /\
  (forall e, fst run = Raise e -> expected_failure e).
Proof.
  intros run. subst run. unfold traverse, process_category.
  set (levels := Z.to_nat (LIMIT_DEPTH C - 0 + 1)).
  set (st := initialized R C cacher).
  split; [| split].
  - destruct (process_category_levels_below R C api_key levels 0
                (rootCategoryDict C) (ROOT_CATEGORY C) (root_id C) st)
      as (kept & newer & E & Hk & F).
    unfold st, initialized in Hk. cbn [fred_data_tree] in Hk.
    rewrite initialize_tree_root in Hk.
    inversion Hk as [| a root l kept' (Hi & Hp & Ht) Hrest]; subst.
    inversion Hrest; subst.
    exists root, newer. simpl in Hi, Hp, Ht.
    split; [exact E |]. split; [exact Hi |]. split; [exact Hp |].
    split; [exact Ht | exact F].
  - intros ndc nds Hrun.
    destruct (process_category_levels R C api_key levels 0 (rootCategoryDict C) st)
      as [r st'] eqn:E.
    simpl in Hrun. subst r.
    destruct (process_category_levels_adds R C api_key levels 0
                (rootCategoryDict C) st st' (ndc, nds) E) as [Hc Hs].
    simpl in Hc, Hs |- *. split; lia.
  - intros e Hrun.
    apply (process_category_levels_fails R C api_key levels 0
             (rootCategoryDict C) (ROOT_CATEGORY C) (root_id C) st e);
      [| exact Hrun].
    apply get_node_in. eexists. split.
    + unfold st, initialized. cbn [fred_data_tree]. rewrite initialize_tree_root.
      apply elem_of_cons. left. reflexivity.
    + reflexivity.
Qed.

End MainProofs.
